(** * CADENCE: asynchronous throttle / debounce engine and batch throttle

    A shallow embedding of the rate-limiting engine of reynard-core
    (the file holding [throttleHighPrecision], [debounceHighPrecision],
    their medium- and low-precision variants, [throttleBatch] and the
    dispatchers [throttle] and [debounce]), followed by the properties
    proved about it.

    Modelling conventions.
    - Time is an integer number of milliseconds ([Z]); a clock reading is
      an input of the operation that reads it.
    - The closure variables of a wrapper and the part of the host it
      touches (promise store, live timers, abort signal, log of the calls
      made to the wrapped operation) form one record, threaded through
      every operation.
    - An [async] function is split where it awaits the wrapped operation:
      the synchronous prefix ends in [Calls], and [resume] is the code
      that runs once the operation has settled.
    - The host's timers honour a delay up to [TIMEOUT_MAX] and run a
      larger one almost at once.
    - The function handed to [throttleBatch] is called synchronously and
      may throw; an oracle says what each of its calls does. *)

From Stdlib Require Import ZArith String Bool Lia.
From stdpp Require Import base list.

Open Scope Z_scope.

(** ** Values shared by every wrapper *)

Inductive PrecisionTier := HIGH | MEDIUM | LOW.

(** The two clocks of the host: [performance.now()] and [Date.now()]. *)
Record Clock := { performance_now : Z; Date_now : Z }.

(** HIGH reads [performance.now()], MEDIUM and LOW read [Date.now()]. *)
Definition read_clock (tier : PrecisionTier) (clk : Clock) : Z :=
  match tier with
  | HIGH => performance_now clk
  | MEDIUM | LOW => Date_now clk
  end.

(** A thrown value: a [DOMException] with its message and name, or
    whatever the wrapped operation failed with. *)
Inductive Error :=
| DOMException (message name : string)
| Thrown (reason : string).

Definition error_name (e : Error) : string :=
  match e with
  | DOMException _ name => name
  | Thrown _ => "Error"
  end.

Definition aborted_error : Error :=
  DOMException "Operation was aborted" "AbortError".

Definition cancelled_error : Error :=
  DOMException "Operation was cancelled" "AbortError".

(** Completion of a synchronous call: it returns or it throws. *)
Inductive Completion (A : Type) :=
| Normal (a : A)
| Throw (e : Error).
Arguments Normal {A} a.
Arguments Throw {A} e.

(** The closure returned by [setupAbortListener]: it removes the
    listener when a signal was given and does nothing otherwise. *)
Inductive AbortCleanup := RemoveAbortListener | NoListener.

(** The continuation of an [async] function suspended on the wrapped
    operation: the leading-edge call, the timer callback, or [flush]. *)
Inductive Kont := KLeading | KTimer | KFlush.

(** The options object of [throttle] and [debounce]; an absent key is
    [None].  [opt_abortSignal] holds the [aborted] flag the signal has
    when the wrapper is built. *)
Record AsyncOptions := {
  opt_leading : option bool;
  opt_trailing : option bool;
  opt_maxWait : option Z;
  opt_abortSignal : option bool;
  opt_precision : option PrecisionTier
}.

Definition no_options : AsyncOptions :=
  {| opt_leading := None; opt_trailing := None; opt_maxWait := None;
     opt_abortSignal := None; opt_precision := None |}.

Record BatchThrottleOptions := {
  opt_batchSize : option Z;
  opt_batchMaxWait : option Z
}.

(** [const { x = d } = options]: the default applies to an absent key. *)
Definition default {A : Type} (d : A) (o : option A) : A :=
  match o with
  | Some a => a
  | None => d
  end.

(** The configuration a high- or medium-precision constructor closes
    over after destructuring its options. *)
Record Config := {
  precision : PrecisionTier;
  wait : Z;
  leading : bool;
  trailing : bool;
  maxWait : option Z;
  abortSignal : bool
}.

(** Truthiness of an optional number: [undefined] and [0] are falsy. *)
Definition truthy (m : option Z) : option Z :=
  match m with
  | Some v => if v =? 0 then None else Some v
  | None => None
  end.

(** ** The host's timers

    The host keeps a timer's delay in a signed 32-bit integer.  A delay
    up to [TIMEOUT_MAX] is honoured, a negative one counting as [0]; a
    larger one overflows and the callback runs straight away: after 1 ms
    in Node, which is what [host_delay] says, and after the delay wrapped
    to 32 bits in a browser.  The properties below that depend on when a
    timer is due ask for delays within [TIMEOUT_MAX], where the hosts
    agree. *)
Definition TIMEOUT_MAX : Z := 2147483647.

Definition host_delay (delay : Z) : Z :=
  if TIMEOUT_MAX <? delay then 1 else Z.max 0 delay.
Arguments host_delay : simpl never.

Section Engine.
Context {Args R : Type}.

(** Outcome of the promise returned by the wrapped operation. *)
Inductive Outcome :=
| Fulfilled (r : R)
| Failed (e : Error).

Inductive PromiseState :=
| Pending
| Resolved (v : option R)
| Rejected (e : Error).

(** What the promise handed to the caller of an [async] function does:
    it is fulfilled, it is rejected, or it adopts the state of the
    promise the function returned. *)
Inductive Reply :=
| Resolves (v : option R)
| Rejects (e : Error)
| Adopts (p : nat).

(** The closure variables of a wrapper, then the host state. *)
Record Instance := {
  timeoutId : option nat;
  lastExecTime : Z;
  lastArgs : option Args;
  lastResult : option R;
  pendingPromise : option nat;
  resolvePending : option nat;
  rejectPending : option nat;
  abortCleanup : option AbortCleanup;
  hasExecutedInCurrentBurst : bool;
  promises : list PromiseState;
  timers : list (nat * Z);
  nextTimer : nat;
  aborted : bool;
  listener : bool;
  calls : list Args
}.

(** A suspended or finished run of an [async] function. *)
Inductive Step :=
| Finished (w : Instance) (r : Reply)
| Calls (w : Instance) (args : Args) (k : Kont).

Definition set_timeoutId (v : option nat) (w : Instance) : Instance :=
  Build_Instance v (lastExecTime w) (lastArgs w) (lastResult w)
    (pendingPromise w) (resolvePending w) (rejectPending w)
    (abortCleanup w) (hasExecutedInCurrentBurst w) (promises w)
    (timers w) (nextTimer w) (aborted w) (listener w) (calls w).

Definition set_lastExecTime (v : Z) (w : Instance) : Instance :=
  Build_Instance (timeoutId w) v (lastArgs w) (lastResult w)
    (pendingPromise w) (resolvePending w) (rejectPending w)
    (abortCleanup w) (hasExecutedInCurrentBurst w) (promises w)
    (timers w) (nextTimer w) (aborted w) (listener w) (calls w).

Definition set_lastArgs (v : option Args) (w : Instance) : Instance :=
  Build_Instance (timeoutId w) (lastExecTime w) v (lastResult w)
    (pendingPromise w) (resolvePending w) (rejectPending w)
    (abortCleanup w) (hasExecutedInCurrentBurst w) (promises w)
    (timers w) (nextTimer w) (aborted w) (listener w) (calls w).

Definition set_lastResult (v : option R) (w : Instance) : Instance :=
  Build_Instance (timeoutId w) (lastExecTime w) (lastArgs w) v
    (pendingPromise w) (resolvePending w) (rejectPending w)
    (abortCleanup w) (hasExecutedInCurrentBurst w) (promises w)
    (timers w) (nextTimer w) (aborted w) (listener w) (calls w).

Definition set_pendingPromise (v : option nat) (w : Instance) : Instance :=
  Build_Instance (timeoutId w) (lastExecTime w) (lastArgs w) (lastResult w)
    v (resolvePending w) (rejectPending w)
    (abortCleanup w) (hasExecutedInCurrentBurst w) (promises w)
    (timers w) (nextTimer w) (aborted w) (listener w) (calls w).

Definition set_resolvePending (v : option nat) (w : Instance) : Instance :=
  Build_Instance (timeoutId w) (lastExecTime w) (lastArgs w) (lastResult w)
    (pendingPromise w) v (rejectPending w)
    (abortCleanup w) (hasExecutedInCurrentBurst w) (promises w)
    (timers w) (nextTimer w) (aborted w) (listener w) (calls w).

Definition set_rejectPending (v : option nat) (w : Instance) : Instance :=
  Build_Instance (timeoutId w) (lastExecTime w) (lastArgs w) (lastResult w)
    (pendingPromise w) (resolvePending w) v
    (abortCleanup w) (hasExecutedInCurrentBurst w) (promises w)
    (timers w) (nextTimer w) (aborted w) (listener w) (calls w).

Definition set_abortCleanup (v : option AbortCleanup) (w : Instance)
  : Instance :=
  Build_Instance (timeoutId w) (lastExecTime w) (lastArgs w) (lastResult w)
    (pendingPromise w) (resolvePending w) (rejectPending w)
    v (hasExecutedInCurrentBurst w) (promises w)
    (timers w) (nextTimer w) (aborted w) (listener w) (calls w).

Definition set_hasExecutedInCurrentBurst (v : bool) (w : Instance)
  : Instance :=
  Build_Instance (timeoutId w) (lastExecTime w) (lastArgs w) (lastResult w)
    (pendingPromise w) (resolvePending w) (rejectPending w)
    (abortCleanup w) v (promises w)
    (timers w) (nextTimer w) (aborted w) (listener w) (calls w).

Definition set_promises (v : list PromiseState) (w : Instance) : Instance :=
  Build_Instance (timeoutId w) (lastExecTime w) (lastArgs w) (lastResult w)
    (pendingPromise w) (resolvePending w) (rejectPending w)
    (abortCleanup w) (hasExecutedInCurrentBurst w) v
    (timers w) (nextTimer w) (aborted w) (listener w) (calls w).

Definition set_timers (v : list (nat * Z)) (w : Instance) : Instance :=
  Build_Instance (timeoutId w) (lastExecTime w) (lastArgs w) (lastResult w)
    (pendingPromise w) (resolvePending w) (rejectPending w)
    (abortCleanup w) (hasExecutedInCurrentBurst w) (promises w)
    v (nextTimer w) (aborted w) (listener w) (calls w).

Definition set_nextTimer (v : nat) (w : Instance) : Instance :=
  Build_Instance (timeoutId w) (lastExecTime w) (lastArgs w) (lastResult w)
    (pendingPromise w) (resolvePending w) (rejectPending w)
    (abortCleanup w) (hasExecutedInCurrentBurst w) (promises w)
    (timers w) v (aborted w) (listener w) (calls w).

Definition set_aborted (v : bool) (w : Instance) : Instance :=
  Build_Instance (timeoutId w) (lastExecTime w) (lastArgs w) (lastResult w)
    (pendingPromise w) (resolvePending w) (rejectPending w)
    (abortCleanup w) (hasExecutedInCurrentBurst w) (promises w)
    (timers w) (nextTimer w) v (listener w) (calls w).

Definition set_listener (v : bool) (w : Instance) : Instance :=
  Build_Instance (timeoutId w) (lastExecTime w) (lastArgs w) (lastResult w)
    (pendingPromise w) (resolvePending w) (rejectPending w)
    (abortCleanup w) (hasExecutedInCurrentBurst w) (promises w)
    (timers w) (nextTimer w) (aborted w) v (calls w).

Definition set_calls (v : list Args) (w : Instance) : Instance :=
  Build_Instance (timeoutId w) (lastExecTime w) (lastArgs w) (lastResult w)
    (pendingPromise w) (resolvePending w) (rejectPending w)
    (abortCleanup w) (hasExecutedInCurrentBurst w) (promises w)
    (timers w) (nextTimer w) (aborted w) (listener w) v.

(** *** Host operations *)

(** [setTimeout(cb, delay)] at host time [now]: a fresh handle, due
    after the delay the host makes of [delay]. *)
Definition setTimeout (now delay : Z) (w : Instance) : nat * Instance :=
  let id := nextTimer w in
  (id, set_nextTimer (S id)
         (set_timers (timers w ++ [(id, now + host_delay delay)]) w)).

Definition clearTimeout (id : nat) (w : Instance) : Instance :=
  set_timers (filter (fun t : nat * Z => t.1 <> id) (timers w)) w.

(** [new Promise((resolve, reject) => ...)]: the executor runs at once
    and stores both continuations. *)
Definition newPendingPromise (w : Instance) : Instance :=
  let p := length (promises w) in
  set_rejectPending (Some p)
    (set_resolvePending (Some p)
       (set_pendingPromise (Some p)
          (set_promises (promises w ++ [Pending]) w))).

(** Calling [resolve] or [reject] of a promise: only a pending promise
    changes state. *)
Definition settle (p : nat) (s : PromiseState) (w : Instance) : Instance :=
  match promises w !! p with
  | Some Pending => set_promises (<[p := s]> (promises w)) w
  | _ => w
  end.

(** [if (resolvePending) resolvePending(v)] *)
Definition resolve_if_pending (v : option R) (w : Instance) : Instance :=
  match resolvePending w with
  | Some p => settle p (Resolved v) w
  | None => w
  end.

(** [if (rejectPending) rejectPending(e)] *)
Definition reject_if_pending (e : Error) (w : Instance) : Instance :=
  match rejectPending w with
  | Some p => settle p (Rejected e) w
  | None => w
  end.

(** [pendingPromise = null; resolvePending = null; rejectPending = null] *)
Definition clear_promise_slot (w : Instance) : Instance :=
  set_rejectPending None (set_resolvePending None (set_pendingPromise None w)).

(** [if (timeoutId) { clearTimeout(timeoutId); timeoutId = null; }] *)
Definition clear_timer (w : Instance) : Instance :=
  match timeoutId w with
  | Some id => set_timeoutId None (clearTimeout id w)
  | None => w
  end.

(** [if (abortCleanup) { abortCleanup(); abortCleanup = null; }] *)
Definition run_abortCleanup (w : Instance) : Instance :=
  match abortCleanup w with
  | Some RemoveAbortListener => set_abortCleanup None (set_listener false w)
  | Some NoListener => set_abortCleanup None w
  | None => w
  end.

(** [abortSignal?.aborted] *)
Definition signal_aborted (c : Config) (w : Instance) : bool :=
  abortSignal c && aborted w.

(** The wrapped operation is entered: the call is recorded. *)
Definition call_fn (args : Args) (w : Instance) : Instance :=
  set_calls (calls w ++ [args]) w.

(** The state every high- and medium-precision constructor starts in;
    [abortCleanup = setupAbortListener()] has run. *)
Definition initial (c : Config) (signal : option bool) : Instance :=
  {| timeoutId := None; lastExecTime := 0; lastArgs := None;
     lastResult := None; pendingPromise := None; resolvePending := None;
     rejectPending := None;
     abortCleanup :=
       Some (if abortSignal c then RemoveAbortListener else NoListener);
     hasExecutedInCurrentBurst := false;
     promises := []; timers := []; nextTimer := 1;
     aborted := default false signal;
     listener := abortSignal c; calls := [] |}.

Definition isPending (w : Instance) : bool :=
  match pendingPromise w with
  | Some _ => true
  | None => false
  end.

End Engine.

Arguments Outcome : clear implicits.
Arguments PromiseState : clear implicits.
Arguments Reply : clear implicits.
Arguments Instance : clear implicits.
Arguments Step : clear implicits.

(** ** [throttleHighPrecision] and [throttleMediumPrecision]

    The two source functions differ only in the clock they read
    ([performance.now()] against [Date.now()]); the reading is the
    parameter [now] below and [precision] selects the clock. *)
Module Throttle.
Section Defs.
Context {Args R : Type}.

(** [const { leading = true, trailing = true, maxWait } = syncOptions] *)
Definition config (tier : PrecisionTier) (wait : Z) (o : AsyncOptions)
  : Config :=
  {| precision := tier; wait := wait;
     leading := default true (opt_leading o);
     trailing := default true (opt_trailing o);
     maxWait := opt_maxWait o;
     abortSignal := bool_decide (opt_abortSignal o <> None) |}.

Definition cleanup (w : Instance Args R) : Instance Args R :=
  let w := clear_timer w in
  let w := run_abortCleanup w in
  let w := clear_promise_slot w in
  let w := set_lastArgs None w in
  set_hasExecutedInCurrentBurst false w.

(** [executeFunction] up to its [await]: it throws when the signal has
    fired and otherwise enters the wrapped operation. *)
Definition executeFunction (c : Config) (args : Args) (w : Instance Args R)
  : Completion (Instance Args R) :=
  if signal_aborted c w then Throw aborted_error
  else Normal (call_fn args w).

(** The listener installed by [setupAbortListener]. *)
Definition abortHandler (w : Instance Args R) : Instance Args R :=
  let w := cleanup w in
  match pendingPromise w with
  | Some _ => set_pendingPromise None w
  | None => w
  end.

(** The body of the [setTimeout] callback, up to its [await]. *)
Definition timerCallback (c : Config) (now : Z) (w : Instance Args R)
  : Step Args R :=
  match lastArgs w, signal_aborted c w with
  | Some argsToUse, false =>
      let w := set_lastExecTime now w in
      let w := set_hasExecutedInCurrentBurst false w in
      let w := set_lastArgs None w in
      match executeFunction c argsToUse w with
      | Normal w => Calls w argsToUse KTimer
      | Throw e =>
          Finished (clear_promise_slot (reject_if_pending e w))
                   (Resolves None)
      end
  | _, _ =>
      Finished (clear_promise_slot (resolve_if_pending (lastResult w) w))
               (Resolves None)
  end.

(** The delay of the trailing timer:
    [maxWait && timeSinceLastExec > 0
       ? Math.min(wait, maxWait - timeSinceLastExec) : wait] *)
Definition trailing_delay (c : Config) (timeSinceLastExec : Z) : Z :=
  match truthy (maxWait c) with
  | Some m =>
      if 0 <? timeSinceLastExec
      then Z.min (wait c) (m - timeSinceLastExec)
      else wait c
  | None => wait c
  end.

(** [asyncThrottled] from the comment "Trailing edge execution" to its
    end. *)
Definition trailingEdge (c : Config) (now timeSinceLastExec : Z)
    (args : Args) (w : Instance Args R) : Step Args R :=
  if trailing c then
    let w := set_lastArgs (Some args) w in
    let w := clear_timer w in
    let w := match pendingPromise w with
             | Some _ => w
             | None => newPendingPromise w
             end in
    let '(id, w) := setTimeout now (trailing_delay c timeSinceLastExec) w in
    let w := set_timeoutId (Some id) w in
    match pendingPromise w with
    | Some p => Finished w (Adopts p)
    | None => Finished w (Resolves None)
    end
  else Finished w (Resolves (lastResult w)).

Definition asyncThrottled (c : Config) (now : Z) (args : Args)
    (w : Instance Args R) : Step Args R :=
  if signal_aborted c w then Finished w (Rejects aborted_error)
  else
    let timeSinceLastExec := now - lastExecTime w in
    if leading c
       && ((lastExecTime w =? 0) || (wait c <=? timeSinceLastExec))
    then
      let w := set_lastExecTime now w in
      let w := set_hasExecutedInCurrentBurst true w in
      let w := clear_timer w in
      let w := match pendingPromise w with
               | Some _ => clear_promise_slot w
               | None => w
               end in
      let w := set_lastArgs (if trailing c then Some args else None) w in
      match executeFunction c args w with
      | Normal w => Calls w args KLeading
      | Throw e => Finished w (Rejects e)
      end
    else if leading c && hasExecutedInCurrentBurst w
            && (timeSinceLastExec <? wait c)
    then
      if negb (trailing c) then Finished w (Resolves (lastResult w))
      else trailingEdge c now timeSinceLastExec args w
    else trailingEdge c now timeSinceLastExec args w.

Definition cancel (w : Instance Args R) : Instance Args R :=
  let w := clear_timer w in
  let w := reject_if_pending cancelled_error w in
  let w := run_abortCleanup w in
  clear_promise_slot w.

(** [flush] up to its [await]. *)
Definition flush (c : Config) (w : Instance Args R) : Step Args R :=
  let w := clear_timer w in
  match lastArgs w, signal_aborted c w with
  | Some argsToUse, false =>
      let w := set_lastArgs None w in
      Calls (call_fn argsToUse w) argsToUse KFlush
  | _, _ =>
      let w := resolve_if_pending (lastResult w) w in
      let w := clear_promise_slot w in
      Finished w (Resolves (lastResult w))
  end.

(** The code after each [await], run with the outcome of the wrapped
    operation. *)
Definition resume (k : Kont) (o : Outcome R) (w : Instance Args R)
  : Instance Args R * Reply R :=
  match k, o with
  | KLeading, Fulfilled r => (set_lastResult (Some r) w, Resolves (Some r))
  | KLeading, Failed e => (w, Rejects e)
  | KTimer, Fulfilled r =>
      let w := set_lastResult (Some r) w in
      let w := resolve_if_pending (Some r) w in
      (clear_promise_slot w, Resolves None)
  | KTimer, Failed e =>
      let w := reject_if_pending e w in
      (clear_promise_slot w, Resolves None)
  | KFlush, Fulfilled r =>
      let w := set_lastResult (Some r) w in
      let w := resolve_if_pending (Some r) w in
      (clear_promise_slot w, Resolves (Some r))
  | KFlush, Failed e =>
      let w := reject_if_pending e w in
      (clear_promise_slot w, Rejects e)
  end.

End Defs.
End Throttle.

(** ** [debounceHighPrecision] and [debounceMediumPrecision]

    As for throttle, the two source functions differ only in the clock.
    The debounce closure has no [hasExecutedInCurrentBurst]; that field
    of the record is never touched here. *)
Module Debounce.
Section Defs.
Context {Args R : Type}.

(** [const { leading = false, trailing = true, maxWait } = syncOptions] *)
Definition config (tier : PrecisionTier) (wait : Z) (o : AsyncOptions)
  : Config :=
  {| precision := tier; wait := wait;
     leading := default false (opt_leading o);
     trailing := default true (opt_trailing o);
     maxWait := opt_maxWait o;
     abortSignal := bool_decide (opt_abortSignal o <> None) |}.

Definition cleanup (w : Instance Args R) : Instance Args R :=
  let w := clear_timer w in
  let w := run_abortCleanup w in
  let w := clear_promise_slot w in
  set_lastArgs None w.

(** [executeFunction] up to its [await]: here it has no abort check. *)
Definition executeFunction (args : Args) (w : Instance Args R)
  : Instance Args R :=
  call_fn args w.

(** The listener installed by [setupAbortListener]. *)
Definition abortHandler (w : Instance Args R) : Instance Args R :=
  let w := cleanup w in
  reject_if_pending aborted_error w.

(** The [setTimeout] callback, up to the call of the wrapped operation;
    the [.then] and [.catch] handlers are [resume KTimer]. *)
Definition timerCallback (c : Config) (now : Z) (w : Instance Args R)
  : Step Args R :=
  match lastArgs w with
  | Some argsToUse =>
      let w := set_lastExecTime now w in
      let w := set_lastArgs None w in
      Calls (executeFunction argsToUse w) argsToUse KTimer
  | None =>
      let w := resolve_if_pending (lastResult w) w in
      Finished (clear_promise_slot w) (Resolves None)
  end.

(** [maxWait ? Math.min(wait, maxWait - timeSinceLastExec) : wait] *)
Definition trailing_delay (c : Config) (timeSinceLastExec : Z) : Z :=
  match truthy (maxWait c) with
  | Some m => Z.min (wait c) (m - timeSinceLastExec)
  | None => wait c
  end.

Definition asyncDebounced (c : Config) (now : Z) (args : Args)
    (w : Instance Args R) : Step Args R :=
  if signal_aborted c w then Finished w (Rejects aborted_error)
  else
    let timeSinceLastExec := now - lastExecTime w in
    let w := clear_timer w in
    let w := set_lastArgs (Some args) w in
    let w := match pendingPromise w with
             | Some _ => w
             | None => newPendingPromise w
             end in
    if leading c
       && ((lastExecTime w =? 0) || (wait c <=? timeSinceLastExec))
    then
      let w := set_lastExecTime now w in
      Calls (executeFunction args w) args KLeading
    else
      let w :=
        if trailing c then
          let '(id, w) :=
            setTimeout now (trailing_delay c timeSinceLastExec) w in
          set_timeoutId (Some id) w
        else w in
      match pendingPromise w with
      | Some p => Finished w (Adopts p)
      | None => Finished w (Resolves None)
      end.

Definition cancel (w : Instance Args R) : Instance Args R :=
  let w := clear_timer w in
  let w := reject_if_pending cancelled_error w in
  cleanup w.

(** [flush] up to its [await]. *)
Definition flush (c : Config) (w : Instance Args R) : Step Args R :=
  match lastArgs w, signal_aborted c w with
  | Some argsToUse, false =>
      let w := cleanup w in
      Calls (call_fn argsToUse w) argsToUse KFlush
  | _, _ => Finished w (Resolves (lastResult w))
  end.

(** The code after each [await] (or in [.then] / [.catch]). *)
Definition resume (k : Kont) (o : Outcome R) (w : Instance Args R)
  : Instance Args R * Reply R :=
  match k, o with
  | KLeading, Fulfilled r =>
      let w := set_lastResult (Some r) w in
      let w := resolve_if_pending (Some r) w in
      (clear_promise_slot w, Resolves (Some r))
  | KLeading, Failed e =>
      let w := reject_if_pending e w in
      (clear_promise_slot w, Rejects e)
  | KTimer, Fulfilled r =>
      let w := set_lastResult (Some r) w in
      let w := resolve_if_pending (Some r) w in
      (clear_promise_slot w, Resolves None)
  | KTimer, Failed e =>
      let w := reject_if_pending e w in
      (clear_promise_slot w, Resolves None)
  | KFlush, Fulfilled r => (set_lastResult (Some r) w, Resolves (Some r))
  | KFlush, Failed e => (w, Rejects e)
  end.

End Defs.
End Debounce.

(** ** The interface shared by the four promise-carrying wrappers

    [AsyncThrottledFunction] and [AsyncDebouncedFunction]: the callable,
    [cancel], [flush], together with the timer callback, the abort
    listener and the continuations each implementation installs. *)
Record RateLimiter (Args R : Type) := {
  rl_config : PrecisionTier -> Z -> AsyncOptions -> Config;
  rl_invoke : Config -> Z -> Args -> Instance Args R -> Step Args R;
  rl_timer : Config -> Z -> Instance Args R -> Step Args R;
  rl_resume : Kont -> Outcome R -> Instance Args R
              -> Instance Args R * Reply R;
  rl_cancel : Instance Args R -> Instance Args R;
  rl_flush : Config -> Instance Args R -> Step Args R;
  rl_abortHandler : Instance Args R -> Instance Args R
}.
Arguments rl_config {Args R} _ _ _ _.
Arguments rl_invoke {Args R} _ _ _ _ _.
Arguments rl_timer {Args R} _ _ _ _.
Arguments rl_resume {Args R} _ _ _ _.
Arguments rl_cancel {Args R} _ _.
Arguments rl_flush {Args R} _ _ _.
Arguments rl_abortHandler {Args R} _ _.

Definition throttle_engine {Args R : Type} : RateLimiter Args R :=
  {| rl_config := Throttle.config;
     rl_invoke := Throttle.asyncThrottled;
     rl_timer := Throttle.timerCallback;
     rl_resume := Throttle.resume;
     rl_cancel := Throttle.cancel;
     rl_flush := Throttle.flush;
     rl_abortHandler := Throttle.abortHandler |}.

Definition debounce_engine {Args R : Type} : RateLimiter Args R :=
  {| rl_config := Debounce.config;
     rl_invoke := Debounce.asyncDebounced;
     rl_timer := Debounce.timerCallback;
     rl_resume := Debounce.resume;
     rl_cancel := Debounce.cancel;
     rl_flush := Debounce.flush;
     rl_abortHandler := Debounce.abortHandler |}.

(** ** The host driving a wrapper *)
Section Host.
Context {Args R : Type}.

(** What can happen to a wrapper: its caller invokes it, cancels or
    flushes; the host fires the live timer, resumes an [async] function
    whose wrapped operation has settled, or fires the abort signal. *)
Inductive Event :=
| Invoke (clk : Clock) (args : Args)
| FlushCalled
| CancelCalled
| TimerFires (clk : Clock)
| Settles (k : Kont) (o : Outcome R)
| SignalAborts.

Definition after (s : Step Args R) : Instance Args R :=
  match s with
  | Finished w _ => w
  | Calls w _ _ => w
  end.

(** The host takes the first live timer off its queue and runs its
    callback. *)
Definition fire (E : RateLimiter Args R) (c : Config) (now : Z)
    (w : Instance Args R) : Step Args R :=
  match timers w with
  | _ :: rest => rl_timer E c now (set_timers rest w)
  | [] => Finished w (Resolves None)
  end.

(** [abort()] on the controller: the flag is set and the listener, added
    with [once: true], runs and is dropped.  A signal fires once. *)
Definition signal_aborts (E : RateLimiter Args R) (c : Config)
    (w : Instance Args R) : Instance Args R :=
  if abortSignal c && negb (aborted w) then
    let w := set_aborted true w in
    if listener w then rl_abortHandler E (set_listener false w) else w
  else w.

Definition step (E : RateLimiter Args R) (c : Config) (e : Event)
    (w : Instance Args R) : Instance Args R :=
  match e with
  | Invoke clk args => after (rl_invoke E c (read_clock (precision c) clk) args w)
  | FlushCalled => after (rl_flush E c w)
  | CancelCalled => rl_cancel E w
  | TimerFires clk => after (fire E c (read_clock (precision c) clk) w)
  | Settles k o => fst (rl_resume E k o w)
  | SignalAborts => signal_aborts E c w
  end.

Definition run (E : RateLimiter Args R) (c : Config) (es : list Event)
    (w : Instance Args R) : Instance Args R :=
  fold_left (fun w e => step E c e w) es w.

(** The events that are requests of the caller to run the operation. *)
Definition caller_request (e : Event) : bool :=
  match e with
  | Invoke _ _ | FlushCalled => true
  | _ => false
  end.

(** An [async] function run to its end by a wrapped operation that
    settles, with outcome [fn n args] on its [n]-th call, before anything
    else happens. *)
Definition complete (E : RateLimiter Args R)
    (fn : nat -> Args -> Outcome R) (s : Step Args R)
  : Instance Args R * Reply R :=
  match s with
  | Finished w r => (w, r)
  | Calls w args k => rl_resume E k (fn (length (calls w)) args) w
  end.

(** The state of the promise a caller holds. *)
Definition observed (w : Instance Args R) (r : Reply R) : PromiseState R :=
  match r with
  | Resolves v => Resolved v
  | Rejects e => Rejected e
  | Adopts p => default Pending (promises w !! p)
  end.

(** *** A burst on an idealised scheduler

    Each invocation carries the clock reading at which it arrives; a
    timer fires exactly when it is due, before an invocation that
    arrives at that instant or later. *)
Definition fire_due (E : RateLimiter Args R) (c : Config)
    (fn : nat -> Args -> Outcome R) (t : Z) (w : Instance Args R)
  : Instance Args R :=
  match timers w with
  | (_, due) :: _ =>
      if due <=? t then fst (complete E fn (fire E c due w)) else w
  | [] => w
  end.

Fixpoint burst (E : RateLimiter Args R) (c : Config)
    (fn : nat -> Args -> Outcome R) (invs : list (Z * Args))
    (w : Instance Args R) : Instance Args R :=
  match invs with
  | [] => w
  | (t, args) :: rest =>
      let w := fire_due E c fn t w in
      burst E c fn rest (fst (complete E fn (rl_invoke E c t args w)))
  end.

(** Time passes until the live timer, if any, has fired. *)
Definition quiesce (E : RateLimiter Args R) (c : Config)
    (fn : nat -> Args -> Outcome R) (w : Instance Args R)
  : Instance Args R :=
  match timers w with
  | (_, due) :: _ => fst (complete E fn (fire E c due w))
  | [] => w
  end.

End Host.
Arguments Event : clear implicits.

(** ** [throttleLowPrecision] and [debounceLowPrecision]

    No promise is involved: the wrapper returns [void]. The model
    records the calls made to the wrapped operation; what the operation
    returns is only logged by the source and is not part of the state. *)
Module Low.

Record LowConfig := {
  wait : Z;
  leading : bool;
  trailing : bool;
  maxWait : option Z
}.

Section Defs.
Context {Args : Type}.

Record LowInstance := {
  timeoutId : option nat;
  lastExecTime : Z;
  lastArgs : option Args;
  timers : list (nat * Z);
  nextTimer : nat;
  calls : list Args
}.

Definition initial : LowInstance :=
  {| timeoutId := None; lastExecTime := 0; lastArgs := None;
     timers := []; nextTimer := 1; calls := [] |}.

Definition setTimeout (now delay : Z) (w : LowInstance)
  : nat * LowInstance :=
  let id := nextTimer w in
  (id, {| timeoutId := timeoutId w; lastExecTime := lastExecTime w;
          lastArgs := lastArgs w;
          timers := timers w ++ [(id, now + host_delay delay)];
          nextTimer := S id; calls := calls w |}).

Definition clearTimeout (id : nat) (w : LowInstance) : LowInstance :=
  {| timeoutId := timeoutId w; lastExecTime := lastExecTime w;
     lastArgs := lastArgs w;
     timers := filter (fun t : nat * Z => t.1 <> id) (timers w);
     nextTimer := nextTimer w; calls := calls w |}.

Definition set_timeoutId (v : option nat) (w : LowInstance) : LowInstance :=
  {| timeoutId := v; lastExecTime := lastExecTime w; lastArgs := lastArgs w;
     timers := timers w; nextTimer := nextTimer w; calls := calls w |}.

Definition set_lastExecTime (v : Z) (w : LowInstance) : LowInstance :=
  {| timeoutId := timeoutId w; lastExecTime := v; lastArgs := lastArgs w;
     timers := timers w; nextTimer := nextTimer w; calls := calls w |}.

Definition set_lastArgs (v : option Args) (w : LowInstance) : LowInstance :=
  {| timeoutId := timeoutId w; lastExecTime := lastExecTime w; lastArgs := v;
     timers := timers w; nextTimer := nextTimer w; calls := calls w |}.

Definition call_fn (args : Args) (w : LowInstance) : LowInstance :=
  {| timeoutId := timeoutId w; lastExecTime := lastExecTime w;
     lastArgs := lastArgs w; timers := timers w; nextTimer := nextTimer w;
     calls := calls w ++ [args] |}.

(** [const { leading = true, trailing = false } = options] *)
Definition throttle_config (wait : Z) (o : AsyncOptions) : LowConfig :=
  {| wait := wait;
     leading := default true (opt_leading o);
     trailing := default false (opt_trailing o);
     maxWait := None |}.

(** [const { leading = false, trailing = true, maxWait } = options] *)
Definition debounce_config (wait : Z) (o : AsyncOptions) : LowConfig :=
  {| wait := wait;
     leading := default false (opt_leading o);
     trailing := default true (opt_trailing o);
     maxWait := opt_maxWait o |}.

(** The function returned by [throttleLowPrecision]; [now] is
    [Date.now()]. *)
Definition throttled (c : LowConfig) (now : Z) (args : Args)
    (w : LowInstance) : LowInstance :=
  let timeSinceLastExec := now - lastExecTime w in
  if leading c && (wait c <=? timeSinceLastExec) then
    let w := set_lastExecTime now w in
    call_fn args w
  else if trailing c then
    let w := set_lastArgs (Some args) w in
    let w := match timeoutId w with
             | Some id => clearTimeout id w
             | None => w
             end in
    let '(id, w) := setTimeout now (Z.max 0 (wait c - timeSinceLastExec)) w in
    set_timeoutId (Some id) w
  else w.

(** The timer callback of [throttleLowPrecision]. *)
Definition throttle_timer (now : Z) (w : LowInstance) : LowInstance :=
  let w := set_lastExecTime now w in
  let w := match lastArgs w with
           | Some args => call_fn args w
           | None => w
           end in
  let w := set_lastArgs None w in
  set_timeoutId None w.

(** The function returned by [debounceLowPrecision]. *)
Definition debounced (c : LowConfig) (now : Z) (args : Args)
    (w : LowInstance) : LowInstance :=
  let timeSinceLastExec := now - lastExecTime w in
  let w := match timeoutId w with
           | Some id => set_timeoutId None (clearTimeout id w)
           | None => w
           end in
  let w := set_lastArgs (Some args) w in
  if leading c && ((lastExecTime w =? 0) || (wait c <=? timeSinceLastExec))
  then
    let w := set_lastExecTime now w in
    call_fn args w
  else if trailing c then
    let delay :=
      match truthy (maxWait c) with
      | Some m => Z.min (wait c) (m - timeSinceLastExec)
      | None => wait c
      end in
    let '(id, w) := setTimeout now delay w in
    set_timeoutId (Some id) w
  else w.

(** The timer callback of [debounceLowPrecision]. *)
Definition debounce_timer (now : Z) (w : LowInstance) : LowInstance :=
  let w := match lastArgs w with
           | Some argsToUse =>
               let w := set_lastExecTime now w in
               let w := set_lastArgs None w in
               call_fn argsToUse w
           | None => w
           end in
  set_timeoutId None w.

(** The host fires the first live timer. *)
Definition fire (callback : Z -> LowInstance -> LowInstance) (now : Z)
    (w : LowInstance) : LowInstance :=
  match timers w with
  | _ :: rest =>
      callback now
        {| timeoutId := timeoutId w; lastExecTime := lastExecTime w;
           lastArgs := lastArgs w; timers := rest;
           nextTimer := nextTimer w; calls := calls w |}
  | [] => w
  end.

End Defs.
Arguments LowInstance : clear implicits.
End Low.

(** ** [throttleBatch]

    The batch function either returns (a rejection of the promise it
    returns is caught and logged) or throws synchronously, which nothing
    in [throttleBatch] catches.  [fn n b] is what its [n]-th call does
    when it is handed the buffer [b]; [calls] records the buffer handed
    over at each call. *)
Module Batch.

Record BatchConfig := {
  wait : Z;
  batchSize : Z;
  maxWait : Z
}.

(** [const { batchSize = 10, maxWait = wait * 3 } = options] *)
Definition config (wait : Z) (o : BatchThrottleOptions) : BatchConfig :=
  {| wait := wait;
     batchSize := default 10 (opt_batchSize o);
     maxWait := default (wait * 3) (opt_batchMaxWait o) |}.

Section Defs.
Context {Args : Type}.

Record BatchInstance := {
  batch : list Args;
  timeoutId : option nat;
  firstBatchTime : Z;
  timers : list (nat * Z);
  nextTimer : nat;
  calls : list (list Args)
}.

Definition initial : BatchInstance :=
  {| batch := []; timeoutId := None; firstBatchTime := 0;
     timers := []; nextTimer := 1; calls := [] |}.

Definition setTimeout (now delay : Z) (w : BatchInstance)
  : nat * BatchInstance :=
  let id := nextTimer w in
  (id, {| batch := batch w; timeoutId := timeoutId w;
          firstBatchTime := firstBatchTime w;
          timers := timers w ++ [(id, now + host_delay delay)];
          nextTimer := S id; calls := calls w |}).

Definition clearTimeout (id : nat) (w : BatchInstance) : BatchInstance :=
  {| batch := batch w; timeoutId := timeoutId w;
     firstBatchTime := firstBatchTime w;
     timers := filter (fun t : nat * Z => t.1 <> id) (timers w);
     nextTimer := nextTimer w; calls := calls w |}.

Definition set_timeoutId (v : option nat) (w : BatchInstance)
  : BatchInstance :=
  {| batch := batch w; timeoutId := v; firstBatchTime := firstBatchTime w;
     timers := timers w; nextTimer := nextTimer w; calls := calls w |}.

Definition set_batch (v : list Args) (w : BatchInstance) : BatchInstance :=
  {| batch := v; timeoutId := timeoutId w;
     firstBatchTime := firstBatchTime w;
     timers := timers w; nextTimer := nextTimer w; calls := calls w |}.

Definition set_firstBatchTime (v : Z) (w : BatchInstance) : BatchInstance :=
  {| batch := batch w; timeoutId := timeoutId w; firstBatchTime := v;
     timers := timers w; nextTimer := nextTimer w; calls := calls w |}.

(** [fn(batch)] *)
Definition call_fn (b : list Args) (w : BatchInstance) : BatchInstance :=
  {| batch := batch w; timeoutId := timeoutId w;
     firstBatchTime := firstBatchTime w; timers := timers w;
     nextTimer := nextTimer w; calls := calls w ++ [b] |}.

(** [flush]: when [fn(batch)] throws, the assignments after it are
    skipped and the exception leaves [flush]. *)
Definition flush (fn : nat -> list Args -> Completion unit)
    (w : BatchInstance) : BatchInstance * Completion unit :=
  if (0 <? length (batch w))%nat then
    let w := call_fn (batch w) w in
    match fn (length (calls w)) (batch w) with
    | Normal _ =>
        let w := set_batch [] w in
        let w := set_firstBatchTime 0 w in
        (set_timeoutId None w, Normal tt)
    | Throw e => (w, Throw e)
    end
  else (set_timeoutId None w, Normal tt).

(** [if (timeoutId) clearTimeout(timeoutId)] *)
Definition clear_if_set (w : BatchInstance) : BatchInstance :=
  match timeoutId w with
  | Some id => clearTimeout id w
  | None => w
  end.

(** The test that decides between flushing now and arming the timer,
    evaluated after the push. *)
Definition must_flush (c : BatchConfig) (now : Z) (w : BatchInstance)
  : bool :=
  (batchSize c <=? Z.of_nat (length (batch w)))
  || (maxWait c <=? now - firstBatchTime w).

(** The function returned by [throttleBatch]; [now] is [Date.now()].
    An exception of [flush] reaches the caller. *)
Definition batched (fn : nat -> list Args -> Completion unit)
    (c : BatchConfig) (now : Z) (args : Args) (w : BatchInstance)
  : BatchInstance * Completion unit :=
  let w := if (length (batch w) =? 0)%nat
           then set_firstBatchTime now w else w in
  let w := set_batch (batch w ++ [args]) w in
  if must_flush c now w then
    let w := clear_if_set w in
    flush fn w
  else
    let w := clear_if_set w in
    let '(id, w) := setTimeout now (wait c) w in
    (set_timeoutId (Some id) w, Normal tt).

(** The host fires the first live timer, whose callback is [flush]; an
    exception of [flush] is the host's to report. *)
Definition fire (fn : nat -> list Args -> Completion unit)
    (w : BatchInstance) : BatchInstance * Completion unit :=
  match timers w with
  | _ :: rest =>
      flush fn {| batch := batch w; timeoutId := timeoutId w;
                  firstBatchTime := firstBatchTime w; timers := rest;
                  nextTimer := nextTimer w; calls := calls w |}
  | [] => (w, Normal tt)
  end.

Inductive BatchEvent :=
| Invoked (now : Z) (args : Args)
| TimerFired.

(** The state after an event, whether or not the batch function threw
    in it. *)
Definition step (fn : nat -> list Args -> Completion unit)
    (c : BatchConfig) (e : BatchEvent) (w : BatchInstance)
  : BatchInstance :=
  match e with
  | Invoked now args => fst (batched fn c now args w)
  | TimerFired => fst (fire fn w)
  end.

Definition run (fn : nat -> list Args -> Completion unit)
    (c : BatchConfig) (es : list BatchEvent) (w : BatchInstance)
  : BatchInstance :=
  fold_left (fun w e => step fn c e w) es w.

End Defs.
Arguments BatchInstance : clear implicits.
Arguments BatchEvent : clear implicits.
End Batch.

(** ** The exported constructors *)
Section Constructors.
Context {Args R : Type}.

(** What [throttle] and [debounce] return: a promise-carrying wrapper
    with its closure, or a low-precision function with its closure. *)
Inductive Wrapper :=
| AsyncWrapper (E : RateLimiter Args R) (c : Config) (w : Instance Args R)
| LowWrapper (c : Low.LowConfig) (w : Low.LowInstance Args).

Definition throttleHighPrecision (wait : Z) (o : AsyncOptions) : Wrapper :=
  let c := Throttle.config HIGH wait o in
  AsyncWrapper throttle_engine c (initial c (opt_abortSignal o)).

Definition throttleMediumPrecision (wait : Z) (o : AsyncOptions) : Wrapper :=
  let c := Throttle.config MEDIUM wait o in
  AsyncWrapper throttle_engine c (initial c (opt_abortSignal o)).

Definition throttleLowPrecision (wait : Z) (o : AsyncOptions) : Wrapper :=
  LowWrapper (Low.throttle_config wait o) Low.initial.




(** [const { precision = PrecisionTier.HIGH, ...restOptions } = options]
    and the [switch]. *)
Definition throttle (wait : Z) (o : AsyncOptions) : Completion Wrapper :=
  match default HIGH (opt_precision o) with
  | LOW => Normal (throttleLowPrecision wait o)
  | MEDIUM => Normal (throttleMediumPrecision wait o)
  | HIGH => Normal (throttleHighPrecision wait o)
  end.




(** The trailing flag a wrapper was built with. *)
Definition wrapper_trailing (x : Wrapper) : bool :=
  match x with
  | AsyncWrapper _ c _ => trailing c
  | LowWrapper c _ => Low.trailing c
  end.

End Constructors.
Arguments Wrapper : clear implicits.

(** ** Vocabulary of the properties *)

(** The two policies behind the promise-carrying wrappers. *)
Inductive Policy := ThrottlePolicy | DebouncePolicy.

Definition engine_of {Args R : Type} (pol : Policy) : RateLimiter Args R :=
  match pol with
  | ThrottlePolicy => throttle_engine
  | DebouncePolicy => debounce_engine
  end.

Section Vocabulary.
Context {Args R : Type}.

(** Every live timer of the host is the one [timeoutId] names; so at
    most one timer is armed. *)
Definition timers_owned (w : Instance Args R) : Prop :=
  Forall (fun t : nat * Z => timeoutId w = Some t.1) (timers w).

(** [resolvePending] and [rejectPending] belong to [pendingPromise]. *)
Definition slot_paired (w : Instance Args R) : Prop :=
  resolvePending w = pendingPromise w /\ rejectPending w = pendingPromise w.

(** Promise [p] is pending and the wrapper holds no continuation of it. *)
Definition orphaned (p : nat) (w : Instance Args R) : Prop :=
  promises w !! p = Some Pending
  /\ resolvePending w <> Some p
  /\ rejectPending w <> Some p.

(** Consecutive invocations arrive in order and less than [wait] apart;
    [t] is the arrival time of the previous one. *)
Fixpoint gaps_below (wait t : Z) (invs : list (Z * Args)) : Prop :=
  match invs with
  | [] => True
  | (t', _) :: rest => t <= t' /\ t' - t < wait /\ gaps_below wait t' rest
  end.

(** A burst: a first invocation followed by invocations whose gaps are
    all below [wait]. *)
Definition is_burst (wait : Z) (invs : list (Z * Args)) : Prop :=
  match invs with
  | [] => False
  | (t, _) :: rest => gaps_below wait t rest
  end.

(** The invocation resolves with the previous [lastResult] and runs
    nothing: the shape the "neither edge" rule promises. *)
Definition answers_lastResult (E : RateLimiter Args R) (c : Config)
    (now : Z) (args : Args) (w : Instance Args R) : Prop :=
  exists w' r,
    rl_invoke E c now args w = Finished w' r
    /\ observed w' r = Resolved (lastResult w)
    /\ calls w' = calls w.

(** The suppression law as the specification words it: the burst causes
    exactly one call of the wrapped operation, with the arguments of the
    last invocation. *)
Definition one_call_with_last_args (E : RateLimiter Args R) (c : Config)
    (fn : nat -> Args -> Outcome R) (invs : list (Z * Args))
    (w : Instance Args R) : Prop :=
  exists t args,
    last invs = Some (t, args)
    /\ calls (quiesce E c fn (burst E c fn invs w)) = calls w ++ [args].

(** The two invariants every reachable state satisfies. *)
Definition well_formed (w : Instance Args R) : Prop :=
  timers_owned w /\ slot_paired w.

(** The trailing timer is armed for the invocation that arrived at [t]
    with arguments [a]. *)
Definition armed_for (c : Config) (t : Z) (a : Args) (w : Instance Args R)
  : Prop :=
  exists id,
    timers w = [(id, t + Z.max 0 (wait c))]
    /\ timeoutId w = Some id
    /\ lastArgs w = Some a.

End Vocabulary.


Section MoreVocabulary.
Context {Args R : Type}.

(** No timer is live, or exactly one is and [timeoutId] names it. *)
Definition one_timer (w : Instance Args R) : Prop :=
  timers w = []
  \/ exists id due, timers w = [(id, due)] /\ timeoutId w = Some id.


(** The caller invokes the wrapper again, or the host's timer ticks. *)
Definition invocation_or_tick (e : Event Args R) : bool :=
  match e with
  | Invoke _ _ | TimerFires _ => true
  | _ => false
  end.

(** The invocation does not qualify for the leading edge. *)
Definition not_leading_edge (c : Config) (now : Z) (w : Instance Args R)
  : Prop :=
  leading c = false
  \/ (lastExecTime w <> 0 /\ now - lastExecTime w < wait c).

End MoreVocabulary.

(** ** The low-precision wrappers on the idealised scheduler *)
Section LowScheduler.
Context {Args : Type}.

(** The live timer fires when it is due, before an invocation arriving
    at [t]. *)
Definition low_fire_due
    (callback : Z -> Low.LowInstance Args -> Low.LowInstance Args)
    (t : Z) (w : Low.LowInstance Args) : Low.LowInstance Args :=
  match Low.timers w with
  | (_, due) :: _ => if due <=? t then Low.fire callback due w else w
  | [] => w
  end.

Fixpoint low_burst
    (invoke : Z -> Args -> Low.LowInstance Args -> Low.LowInstance Args)
    (callback : Z -> Low.LowInstance Args -> Low.LowInstance Args)
    (invs : list (Z * Args)) (w : Low.LowInstance Args)
  : Low.LowInstance Args :=
  match invs with
  | [] => w
  | (t, args) :: rest =>
      low_burst invoke callback rest (invoke t args (low_fire_due callback t w))
  end.

Definition low_quiesce
    (callback : Z -> Low.LowInstance Args -> Low.LowInstance Args)
    (w : Low.LowInstance Args) : Low.LowInstance Args :=
  match Low.timers w with
  | (_, due) :: _ => Low.fire callback due w
  | [] => w
  end.

(** Every invocation arrives in the window of length [wait] that starts
    at [t0]. *)
Definition within_window (t0 wait : Z) (invs : list (Z * Args)) : Prop :=
  Forall (fun i : Z * Args => t0 <= i.1 /\ i.1 - t0 < wait) invs.

End LowScheduler.

(** ** Vocabulary of the batch properties *)
Section BatchVocabulary.
Context {Args : Type}.

(** The arguments of the invocations among the events, in order. *)
Definition invoked_args (es : list (Batch.BatchEvent Args)) : list Args :=
  flat_map (fun e => match e with
                     | Batch.Invoked _ a => [a]
                     | Batch.TimerFired => []
                     end) es.

(** The batch function never throws synchronously. *)
Definition returns_always (fn : nat -> list Args -> Completion unit)
  : Prop :=
  forall n b, fn n b = Normal tt.

(** The buffer is empty and no timer is live, or the buffer holds
    something and exactly one timer, the one [timeoutId] names, will
    flush it. *)
Definition flush_pending (w : Batch.BatchInstance Args) : Prop :=
  (Batch.batch w = [] /\ Batch.timers w = [])
  \/ (Batch.batch w <> []
      /\ exists id due, Batch.timers w = [(id, due)]
                        /\ Batch.timeoutId w = Some id).

End BatchVocabulary.

(** ** The cancellation utilities

    Abort signals live in a store and are named by their index. A
    listener is the controller whose [abort()] it calls; that is the only
    listener [combineAbortSignals] installs. [abort()] dispatches the
    event synchronously, so an abort can cascade through combined
    controllers; [fuel] bounds the depth of the cascade. *)
Module Signals.

Record AbortSignal := {
  aborted : bool;
  listeners : list nat
}.

Definition is_aborted (s : nat) (st : list AbortSignal) : bool :=
  match st !! s with
  | Some sg => aborted sg
  | None => false
  end.

(** [new AbortController()] *)
Definition newAbortController (st : list AbortSignal) 
  : nat * list AbortSignal :=
  (length st, st ++ [{| aborted := false; listeners := [] |}]).

(** [signal.addEventListener("abort", () => controller.abort(),
    { once: true })] *)
Definition addAbortListener (s controller : nat) (st : list AbortSignal)
  : list AbortSignal :=
  match st !! s with
  | Some sg =>
      <[s := {| aborted := aborted sg;
                listeners := listeners sg ++ [controller] |}]> st
  | None => st
  end.

(** [controller.abort()]: nothing on an aborted signal; otherwise the
    flag is set and the listeners, registered once, run in order. *)
Fixpoint abort (fuel : nat) (i : nat) (st : list AbortSignal)
  : list AbortSignal :=
  match fuel with
  | O => st
  | S fuel' =>
      match st !! i with
      | Some sg =>
          if aborted sg then st
          else fold_left (fun st t => abort fuel' t st) (listeners sg)
                 (<[i := {| aborted := true; listeners := [] |}]> st)
      | None => st
      end
  end.

(** The [for] loop of [combineAbortSignals], with its [break]. *)
Fixpoint combine_loop (fuel : nat) (controller : nat) (signals : list nat)
    (st : list AbortSignal)
  : list AbortSignal :=
  match signals with
  | [] => st
  | s :: rest =>
      if is_aborted s st then abort fuel controller st
      else combine_loop fuel controller rest (addAbortListener s controller st)
  end.

Definition combineAbortSignals (fuel : nat) (signals : list nat) (st : list AbortSignal)
  : nat * list AbortSignal :=
  let '(controller, st) := newAbortController st in
  (controller, combine_loop fuel controller signals st).

End Signals.

(** * Properties *)

(** ** The host's timers *)

Lemma host_delay_in_range (delay : Z) :
  delay <= TIMEOUT_MAX -> host_delay delay = Z.max 0 delay.
Proof.
  intros H. unfold host_delay.
  destruct (TIMEOUT_MAX <? delay) eqn:E; [|reflexivity].
  apply Z.ltb_lt in E. lia.
Qed.

Lemma host_delay_overflow (delay : Z) :
  TIMEOUT_MAX < delay -> host_delay delay = 1.
Proof.
  intros H. unfold host_delay.
  destruct (TIMEOUT_MAX <? delay) eqn:E; [reflexivity|].
  apply Z.ltb_ge in E. lia.
Qed.

Lemma host_delay_bounds (delay : Z) :
  0 <= host_delay delay <= Z.max 0 delay.
Proof.
  unfold host_delay, TIMEOUT_MAX.
  destruct (2147483647 <? delay) eqn:E.
  - apply Z.ltb_lt in E. lia.
  - lia.
Qed.

(** ** Batch throttle *)
Section BatchFacts.
Context {Args : Type}.
Implicit Types (w : Batch.BatchInstance Args) (c : Batch.BatchConfig)
  (fn : nat -> list Args -> Completion unit).

(** What [flush] does: on an empty buffer it only forgets [timeoutId];
    otherwise it hands the whole buffer to the batch function, and
    resets the buffer, [firstBatchTime] and [timeoutId] only when that
    call returns. *)
Lemma batch_flush_spec fn w :
  let r := Batch.flush fn w in
  Batch.timers r.1 = Batch.timers w
  /\ match Batch.batch w with
     | [] => Batch.calls r.1 = Batch.calls w
             /\ Batch.batch r.1 = []
             /\ Batch.firstBatchTime r.1 = Batch.firstBatchTime w
             /\ Batch.timeoutId r.1 = None
             /\ r.2 = Normal tt
     | _ :: _ =>
         Batch.calls r.1 = Batch.calls w ++ [Batch.batch w]
         /\ match fn (length (Batch.calls w ++ [Batch.batch w]))
                  (Batch.batch w) with
            | Normal _ => Batch.batch r.1 = []
                          /\ Batch.firstBatchTime r.1 = 0
                          /\ Batch.timeoutId r.1 = None
                          /\ r.2 = Normal tt
            | Throw e => Batch.batch r.1 = Batch.batch w
                         /\ Batch.firstBatchTime r.1 = Batch.firstBatchTime w
                         /\ Batch.timeoutId r.1 = Batch.timeoutId w
                         /\ r.2 = Throw e
            end
     end.
Proof.
  unfold Batch.flush. destruct (Batch.batch w) as [|x l] eqn:Hb; simpl.
  - rewrite Hb. repeat split.
  - rewrite Hb. destruct (fn _ _); simpl; rewrite ?Hb; repeat split.
Qed.

Lemma batch_clear_if_set_fields w :
  Batch.batch (Batch.clear_if_set w) = Batch.batch w
  /\ Batch.calls (Batch.clear_if_set w) = Batch.calls w
  /\ Batch.firstBatchTime (Batch.clear_if_set w) = Batch.firstBatchTime w.
Proof.
  unfold Batch.clear_if_set. destruct (Batch.timeoutId w); simpl; auto.
Qed.

(** The two ways an invocation can go: flush now, or keep buffering.
    The flush hands over the whole buffer; the buffer and
    [firstBatchTime] are reset when the batch function returns, and are
    left as they are, with the exception passed to the caller, when it
    throws. *)
Lemma batch_batched_cases fn c now (args : Args) w :
  let r := Batch.batched fn c now args w in
  let buffer := Batch.batch w ++ [args] in
  let first := match Batch.batch w with
               | [] => now
               | _ :: _ => Batch.firstBatchTime w
               end in
  ((Batch.batchSize c <= Z.of_nat (length buffer)
    \/ Batch.maxWait c <= now - first)
   /\ Batch.calls r.1 = Batch.calls w ++ [buffer]
   /\ match fn (length (Batch.calls w ++ [buffer])) buffer with
      | Normal _ => Batch.batch r.1 = []
                    /\ Batch.firstBatchTime r.1 = 0
                    /\ r.2 = Normal tt
      | Throw e => Batch.batch r.1 = buffer
                   /\ Batch.firstBatchTime r.1 = first
                   /\ r.2 = Throw e
      end)
  \/
  (~ (Batch.batchSize c <= Z.of_nat (length buffer)
      \/ Batch.maxWait c <= now - first)
   /\ Batch.calls r.1 = Batch.calls w
   /\ Batch.batch r.1 = buffer
   /\ Batch.firstBatchTime r.1 = first
   /\ r.2 = Normal tt).
Proof.
  intros r buffer first. subst r. unfold Batch.batched.
  set (w1 := if (length (Batch.batch w) =? 0)%nat
             then Batch.set_firstBatchTime now w else w).
  assert (Hb1 : Batch.batch w1 = Batch.batch w)
    by (subst w1; destruct (length (Batch.batch w) =? 0)%nat; reflexivity).
  assert (Hc1 : Batch.calls w1 = Batch.calls w)
    by (subst w1; destruct (length (Batch.batch w) =? 0)%nat; reflexivity).
  assert (Hf1 : Batch.firstBatchTime w1 = first).
  { subst w1 first. destruct (Batch.batch w); reflexivity. }
  set (w2 := Batch.set_batch (Batch.batch w1 ++ [args]) w1).
  assert (Hb2 : Batch.batch w2 = buffer)
    by (subst w2 buffer; simpl; now rewrite Hb1).
  assert (Hc2 : Batch.calls w2 = Batch.calls w) by (subst w2; exact Hc1).
  assert (Hf2 : Batch.firstBatchTime w2 = first) by (subst w2; exact Hf1).
  assert (Hmf : Batch.must_flush c now w2 = true
                <-> (Batch.batchSize c <= Z.of_nat (length buffer)
                     \/ Batch.maxWait c <= now - first)).
  { unfold Batch.must_flush. rewrite Hb2, Hf2.
    rewrite orb_true_iff, !Z.leb_le. reflexivity. }
  clearbody w2. clear w1 Hb1 Hc1 Hf1.
  destruct (Batch.must_flush c now w2) eqn:Hm.
  - left. split; [apply Hmf; reflexivity|].
    pose proof (batch_flush_spec fn (Batch.clear_if_set w2)) as [_ Hfl].
    destruct (batch_clear_if_set_fields w2) as (Hb & Hc & Hf).
    rewrite Hb, Hc, Hf, Hb2, Hc2, Hf2 in Hfl.
    assert (Hne : exists x l, buffer = x :: l).
    { subst buffer. destruct (Batch.batch w); simpl; eauto. }
    destruct Hne as (x & l & Hxl). rewrite Hxl in Hfl. rewrite <- Hxl in Hfl.
    destruct Hfl as (H1 & H2). split; [exact H1|].
    destruct (fn _ buffer); tauto.
  - right. split.
    + intros H. apply Hmf in H. discriminate.
    + destruct (batch_clear_if_set_fields w2) as (Hb & Hc & Hf).
      destruct (Batch.setTimeout now (Batch.wait c) (Batch.clear_if_set w2))
        as [id w3] eqn:Hst.
      unfold Batch.setTimeout in Hst. inversion Hst; subst id w3; clear Hst.
      simpl. rewrite Hb, Hc, Hf, Hb2, Hc2, Hf2. auto.
Qed.

(** One event either leaves the log alone or appends one non-empty
    buffer; when that call returns, the buffer is left empty and
    [firstBatchTime] at 0. *)
Lemma batch_step_log fn c (e : Batch.BatchEvent Args) w :
  let w' := Batch.step fn c e w in
  Batch.calls w' = Batch.calls w
  \/ exists b, b <> []
       /\ Batch.calls w' = Batch.calls w ++ [b]
       /\ (fn (length (Batch.calls w')) b = Normal tt ->
           Batch.batch w' = [] /\ Batch.firstBatchTime w' = 0).
Proof.
  intros w'. subst w'. destruct e as [now args|]; simpl.
  - destruct (batch_batched_cases fn c now args w)
      as [(_ & H1 & H2)|(_ & H1 & _)]; [right|left; exact H1].
    exists (Batch.batch w ++ [args]).
    split; [destruct (Batch.batch w); discriminate|].
    split; [exact H1|]. rewrite H1. intros Hr. rewrite Hr in H2. tauto.
  - unfold Batch.fire.
    destruct (Batch.timers w) as [|t rest]; [now left|].
    match goal with |- context [Batch.flush fn ?x] =>
      pose proof (batch_flush_spec fn x) as [_ Hfl]; set (w1 := x) in * end.
    change (Batch.batch w1) with (Batch.batch w) in Hfl.
    change (Batch.calls w1) with (Batch.calls w) in Hfl.
    destruct (Batch.batch w) as [|x l] eqn:Hb.
    + left. tauto.
    + right. exists (x :: l). split; [discriminate|].
      destruct Hfl as (H1 & H2). split; [exact H1|].
      rewrite H1. intros Hr. rewrite Hr in H2. tauto.
Qed.

(** Whatever the batch function does, it is never handed an empty
    buffer. *)
Lemma batch_run_log_nonempty fn c (es : list (Batch.BatchEvent Args)) w :
  Forall (fun b => b <> []) (Batch.calls w) ->
  Forall (fun b => b <> []) (Batch.calls (Batch.run fn c es w)).
Proof.
  revert w. induction es as [|e es IH]; intros w Hw; simpl; [exact Hw|].
  apply IH.
  destruct (batch_step_log fn c e w) as [->|(b & Hb & -> & _)]; [exact Hw|].
  apply Forall_app; split; [exact Hw|]. constructor; [exact Hb|constructor].
Qed.

End BatchFacts.

(** ** Invariants of the promise-carrying wrappers *)
Section EngineFacts.
Context {Args R : Type}.
Implicit Types (w : Instance Args R) (c : Config) (p : nat).

(** Case analysis on the tests an operation makes, then computation. *)
Ltac split_tests :=
  repeat (simpl;
          match goal with
          | |- context [match ?x with _ => _ end] =>
              lazymatch x with
              | context [match _ with _ => _ end] => fail
              | _ => destruct x eqn:?
              end
          end).

Lemma clear_timer_owned w :
  timers_owned w -> clear_timer w = set_timeoutId None (set_timers [] w).
Proof.
  unfold timers_owned, clear_timer, clearTimeout. intros H.
  destruct (timeoutId w) as [id|] eqn:Hid.
  - f_equal. f_equal. induction H as [|t ts Ht Hts IH]; [reflexivity|].
    rewrite filter_cons. injection Ht as ->.
    destruct (decide (t.1 <> t.1)) as [Hne|_]; [congruence|exact IH].
  - destruct w; simpl in *; subst.
    inversion H; subst; [reflexivity|discriminate].
Qed.

Lemma settle_fields p (s : PromiseState R) w :
  timeoutId (settle p s w) = timeoutId w
  /\ lastExecTime (settle p s w) = lastExecTime w
  /\ lastArgs (settle p s w) = lastArgs w
  /\ lastResult (settle p s w) = lastResult w
  /\ pendingPromise (settle p s w) = pendingPromise w
  /\ resolvePending (settle p s w) = resolvePending w
  /\ rejectPending (settle p s w) = rejectPending w
  /\ abortCleanup (settle p s w) = abortCleanup w
  /\ hasExecutedInCurrentBurst (settle p s w) = hasExecutedInCurrentBurst w
  /\ timers (settle p s w) = timers w
  /\ nextTimer (settle p s w) = nextTimer w
  /\ aborted (settle p s w) = aborted w
  /\ listener (settle p s w) = listener w
  /\ calls (settle p s w) = calls w.
Proof.
  unfold settle. destruct (promises w !! p) as [[| |]|]; simpl; repeat split.
Qed.

Lemma settle_pending p (s : PromiseState R) w :
  promises w !! p = Some Pending -> promises (settle p s w) !! p = Some s.
Proof.
  intros H. unfold settle. rewrite H. simpl.
  apply list_lookup_insert_eq. eapply lookup_lt_Some; eauto.
Qed.

Lemma settle_other p q (s : PromiseState R) w :
  p <> q -> promises (settle q s w) !! p = promises w !! p.
Proof.
  intros H. unfold settle. destruct (promises w !! q) as [[| |]|]; simpl; auto.
  apply list_lookup_insert_ne. congruence.
Qed.

(** *** An orphaned promise is never settled *)

Lemma orphaned_intro p w w' :
  orphaned p w ->
  promises w' = promises w ->
  (resolvePending w' = resolvePending w \/ resolvePending w' = None) ->
  (rejectPending w' = rejectPending w \/ rejectPending w' = None) ->
  orphaned p w'.
Proof.
  intros (H1 & H2 & H3) Hp Hr Hj. unfold orphaned. rewrite Hp.
  repeat split; [exact H1|destruct Hr as [->| ->]|destruct Hj as [->| ->]];
    congruence.
Qed.

Lemma orphaned_settle p q (s : PromiseState R) w :
  orphaned p w -> q <> p -> orphaned p (settle q s w).
Proof.
  intros (H1 & H2 & H3) Hq. destruct (settle_fields q s w)
    as (_ & _ & _ & _ & _ & Hr & Hj & _).
  unfold orphaned. rewrite Hr, Hj, settle_other by congruence. auto.
Qed.

Lemma orphaned_resolve_if_pending p v w :
  orphaned p w -> orphaned p (resolve_if_pending v w).
Proof.
  intros H. unfold resolve_if_pending.
  destruct (resolvePending w) as [q|] eqn:Hq; [|exact H].
  apply orphaned_settle; [exact H|]. destruct H as (_ & H & _). congruence.
Qed.

Lemma orphaned_reject_if_pending p e w :
  orphaned p w -> orphaned p (reject_if_pending e w).
Proof.
  intros H. unfold reject_if_pending.
  destruct (rejectPending w) as [q|] eqn:Hq; [|exact H].
  apply orphaned_settle; [exact H|]. destruct H as (_ & _ & H). congruence.
Qed.

Lemma orphaned_newPendingPromise p w :
  orphaned p w -> orphaned p (newPendingPromise w).
Proof.
  intros (H1 & _ & _). pose proof (lookup_lt_Some _ _ _ H1) as Hlt.
  unfold orphaned, newPendingPromise; simpl.
  rewrite lookup_app_l by exact Hlt.
  repeat split; [exact H1| |]; intros [= Heq]; lia.
Qed.

Lemma orphaned_clear_promise_slot p w :
  orphaned p w -> orphaned p (clear_promise_slot w).
Proof. intros H. eapply orphaned_intro; eauto. Qed.

Lemma orphaned_clear_timer p w :
  orphaned p w -> orphaned p (clear_timer w).
Proof.
  intros H. unfold clear_timer. destruct (timeoutId w); [|exact H].
  eapply orphaned_intro; eauto.
Qed.

Lemma orphaned_run_abortCleanup p w :
  orphaned p w -> orphaned p (run_abortCleanup w).
Proof.
  intros H. unfold run_abortCleanup.
  destruct (abortCleanup w) as [[|]|]; [| |exact H];
    eapply orphaned_intro; eauto.
Qed.

Lemma orphaned_set_timeoutId p v w :
  orphaned p w -> orphaned p (set_timeoutId v w).
Proof. intros H. eapply orphaned_intro; eauto. Qed.
Lemma orphaned_set_lastExecTime p v w :
  orphaned p w -> orphaned p (set_lastExecTime v w).
Proof. intros H. eapply orphaned_intro; eauto. Qed.
Lemma orphaned_set_lastArgs p v w :
  orphaned p w -> orphaned p (set_lastArgs v w).
Proof. intros H. eapply orphaned_intro; eauto. Qed.
Lemma orphaned_set_lastResult p v w :
  orphaned p w -> orphaned p (set_lastResult v w).
Proof. intros H. eapply orphaned_intro; eauto. Qed.
Lemma orphaned_set_pendingPromise p v w :
  orphaned p w -> orphaned p (set_pendingPromise v w).
Proof. intros H. eapply orphaned_intro; eauto. Qed.
Lemma orphaned_set_hasExecutedInCurrentBurst p v w :
  orphaned p w -> orphaned p (set_hasExecutedInCurrentBurst v w).
Proof. intros H. eapply orphaned_intro; eauto. Qed.
Lemma orphaned_set_timers p v w :
  orphaned p w -> orphaned p (set_timers v w).
Proof. intros H. eapply orphaned_intro; eauto. Qed.
Lemma orphaned_set_nextTimer p v w :
  orphaned p w -> orphaned p (set_nextTimer v w).
Proof. intros H. eapply orphaned_intro; eauto. Qed.
Lemma orphaned_set_aborted p v w :
  orphaned p w -> orphaned p (set_aborted v w).
Proof. intros H. eapply orphaned_intro; eauto. Qed.
Lemma orphaned_set_listener p v w :
  orphaned p w -> orphaned p (set_listener v w).
Proof. intros H. eapply orphaned_intro; eauto. Qed.
Lemma orphaned_call_fn p (args : Args) w :
  orphaned p w -> orphaned p (call_fn args w).
Proof. intros H. eapply orphaned_intro; eauto. Qed.

Create HintDb orphan.
#[local] Hint Resolve orphaned_resolve_if_pending orphaned_reject_if_pending
  orphaned_newPendingPromise orphaned_clear_promise_slot orphaned_clear_timer
  orphaned_run_abortCleanup orphaned_set_timeoutId orphaned_set_lastExecTime
  orphaned_set_lastArgs orphaned_set_lastResult orphaned_set_pendingPromise
  orphaned_set_hasExecutedInCurrentBurst orphaned_set_timers
  orphaned_set_nextTimer orphaned_set_aborted orphaned_set_listener
  orphaned_call_fn : orphan.

Ltac orphan_step :=
  intros; simpl; split_tests; simpl; eauto 20 with orphan.

Lemma orphaned_throttle_invoke p c now (args : Args) w :
  orphaned p w -> orphaned p (after (Throttle.asyncThrottled c now args w)).
Proof.
  unfold Throttle.asyncThrottled, Throttle.trailingEdge,
    Throttle.executeFunction, setTimeout. orphan_step.
Qed.

Lemma orphaned_throttle_timer p c now w :
  orphaned p w -> orphaned p (after (Throttle.timerCallback c now w)).
Proof.
  unfold Throttle.timerCallback, Throttle.executeFunction. orphan_step.
Qed.

Lemma orphaned_throttle_flush p c w :
  orphaned p w -> orphaned p (after (Throttle.flush c w)).
Proof. unfold Throttle.flush. orphan_step. Qed.

Lemma orphaned_throttle_resume p k (o : Outcome R) w :
  orphaned p w -> orphaned p (Throttle.resume k o w).1.
Proof. unfold Throttle.resume. orphan_step. Qed.

Lemma orphaned_throttle_cancel p w :
  orphaned p w -> orphaned p (Throttle.cancel w).
Proof. unfold Throttle.cancel. orphan_step. Qed.

Lemma orphaned_throttle_abortHandler p w :
  orphaned p w -> orphaned p (Throttle.abortHandler w).
Proof. unfold Throttle.abortHandler, Throttle.cleanup. orphan_step. Qed.

Lemma orphaned_debounce_invoke p c now (args : Args) w :
  orphaned p w -> orphaned p (after (Debounce.asyncDebounced c now args w)).
Proof.
  unfold Debounce.asyncDebounced, Debounce.executeFunction, setTimeout.
  orphan_step.
Qed.

Lemma orphaned_debounce_timer p c now w :
  orphaned p w -> orphaned p (after (Debounce.timerCallback c now w)).
Proof.
  unfold Debounce.timerCallback, Debounce.executeFunction. orphan_step.
Qed.

Lemma orphaned_debounce_flush p c w :
  orphaned p w -> orphaned p (after (Debounce.flush c w)).
Proof. unfold Debounce.flush, Debounce.cleanup. orphan_step. Qed.

Lemma orphaned_debounce_resume p k (o : Outcome R) w :
  orphaned p w -> orphaned p (Debounce.resume k o w).1.
Proof. unfold Debounce.resume. orphan_step. Qed.

Lemma orphaned_debounce_cancel p w :
  orphaned p w -> orphaned p (Debounce.cancel w).
Proof. unfold Debounce.cancel, Debounce.cleanup. orphan_step. Qed.

Lemma orphaned_debounce_abortHandler p w :
  orphaned p w -> orphaned p (Debounce.abortHandler w).
Proof. unfold Debounce.abortHandler, Debounce.cleanup. orphan_step. Qed.

Lemma orphaned_step p (pol : Policy) c (e : Event Args R) w :
  orphaned p w -> orphaned p (step (engine_of pol) c e w).
Proof.
  intros H. destruct pol, e; simpl;
    auto using orphaned_throttle_invoke, orphaned_throttle_flush,
      orphaned_throttle_cancel, orphaned_throttle_resume,
      orphaned_debounce_invoke, orphaned_debounce_flush,
      orphaned_debounce_cancel, orphaned_debounce_resume.
  - unfold fire. destruct (timers w); simpl; [exact H|].
    apply orphaned_throttle_timer; eauto with orphan.
  - unfold signal_aborts. destruct (abortSignal c && negb (aborted w)); [|exact H].
    simpl. destruct (listener w); simpl; [|eauto with orphan].
    apply orphaned_throttle_abortHandler; eauto with orphan.
  - unfold fire. destruct (timers w); simpl; [exact H|].
    apply orphaned_debounce_timer; eauto with orphan.
  - unfold signal_aborts. destruct (abortSignal c && negb (aborted w)); [|exact H].
    simpl. destruct (listener w); simpl; [|eauto with orphan].
    apply orphaned_debounce_abortHandler; eauto with orphan.
Qed.

(** Whatever happens next, an orphaned promise stays pending. *)
Lemma orphaned_forever p (pol : Policy) c (es : list (Event Args R)) w :
  orphaned p w -> promises (run (engine_of pol) c es w) !! p = Some Pending.
Proof.
  revert w. induction es as [|e es IH]; intros w H; simpl.
  - apply H.
  - apply IH, orphaned_step, H.
Qed.

(** *** One armed timer, one promise slot *)

Lemma owned_filter (id : nat) (tms : list (nat * Z)) (tid : option nat) :
  Forall (fun t : nat * Z => tid = Some t.1) tms ->
  tid = Some id ->
  filter (fun t : nat * Z => t.1 <> id) tms = [].
Proof.
  intros H ->. induction H as [|t ts Ht _ IH]; [reflexivity|].
  rewrite filter_cons. injection Ht as ->.
  destruct (decide (t.1 <> t.1)); [congruence|exact IH].
Qed.

Lemma owned_none (tms : list (nat * Z)) :
  Forall (fun t : nat * Z => @None nat = Some t.1) tms -> tms = [].
Proof. destruct 1; [reflexivity|discriminate]. Qed.

Lemma owned_tail (tid : option nat) t (tms : list (nat * Z)) :
  Forall (fun t : nat * Z => tid = Some t.1) (t :: tms) ->
  Forall (fun t : nat * Z => tid = Some t.1) tms.
Proof. inversion 1; assumption. Qed.

(** Open the record, clear the timer list where the code clears the
    timer, split on every test and compute. *)
Ltac open_instance w H :=
  destruct w as [tid lastT lArgs lRes pp rp jp ac burstFlag ps tms nt ab li cs];
  destruct H as [Hown [Hres Hrej]];
  unfold timers_owned in Hown; simpl in Hown, Hres, Hrej; subst rp jp.

Ltac owned_cases tid tms Hown :=
  destruct tid as [id|];
  [ pose proof (owned_filter id tms _ Hown eq_refl) as Hfilter
  | pose proof (owned_none tms Hown) as Hnone; subst tms ].

Ltac close_wf :=
  unfold well_formed, timers_owned, slot_paired; simpl;
  try match goal with H : filter _ _ = [] |- _ => rewrite ?H end; simpl;
  repeat split; auto using owned_tail; try assumption;
  try (repeat constructor; fail).

Lemma wf_throttle_invoke c now (args : Args) w :
  well_formed w -> well_formed (after (Throttle.asyncThrottled c now args w)).
Proof.
  intros H. open_instance w H. owned_cases tid tms Hown;
  unfold Throttle.asyncThrottled, Throttle.trailingEdge,
    Throttle.executeFunction, clear_timer, clearTimeout, signal_aborted,
    newPendingPromise, setTimeout; simpl;
  split_tests; close_wf.
Qed.

Ltac wf_by_cases w H tid tms Hown :=
  open_instance w H; owned_cases tid tms Hown;
  unfold clear_timer, clearTimeout, signal_aborted, newPendingPromise,
    setTimeout, run_abortCleanup, clear_promise_slot, resolve_if_pending,
    reject_if_pending, settle, call_fn; simpl;
  split_tests; close_wf.

Lemma wf_throttle_timer c now w :
  well_formed w -> well_formed (after (Throttle.timerCallback c now w)).
Proof.
  intros H. unfold Throttle.timerCallback, Throttle.executeFunction.
  wf_by_cases w H tid tms Hown.
Qed.

Lemma wf_throttle_flush c w :
  well_formed w -> well_formed (after (Throttle.flush c w)).
Proof. intros H. unfold Throttle.flush. wf_by_cases w H tid tms Hown. Qed.

Lemma wf_throttle_resume k (o : Outcome R) w :
  well_formed w -> well_formed (Throttle.resume k o w).1.
Proof. intros H. unfold Throttle.resume. wf_by_cases w H tid tms Hown. Qed.

Lemma wf_throttle_cancel w :
  well_formed w -> well_formed (Throttle.cancel w).
Proof. intros H. unfold Throttle.cancel. wf_by_cases w H tid tms Hown. Qed.

Lemma wf_throttle_abortHandler w :
  well_formed w -> well_formed (Throttle.abortHandler w).
Proof.
  intros H. unfold Throttle.abortHandler, Throttle.cleanup.
  wf_by_cases w H tid tms Hown.
Qed.

Lemma wf_debounce_invoke c now (args : Args) w :
  well_formed w -> well_formed (after (Debounce.asyncDebounced c now args w)).
Proof.
  intros H. unfold Debounce.asyncDebounced, Debounce.executeFunction.
  wf_by_cases w H tid tms Hown.
Qed.

Lemma wf_debounce_timer c now w :
  well_formed w -> well_formed (after (Debounce.timerCallback c now w)).
Proof.
  intros H. unfold Debounce.timerCallback, Debounce.executeFunction.
  wf_by_cases w H tid tms Hown.
Qed.

Lemma wf_debounce_flush c w :
  well_formed w -> well_formed (after (Debounce.flush c w)).
Proof.
  intros H. unfold Debounce.flush, Debounce.cleanup.
  wf_by_cases w H tid tms Hown.
Qed.

Lemma wf_debounce_resume k (o : Outcome R) w :
  well_formed w -> well_formed (Debounce.resume k o w).1.
Proof. intros H. unfold Debounce.resume. wf_by_cases w H tid tms Hown. Qed.

Lemma wf_debounce_cancel w :
  well_formed w -> well_formed (Debounce.cancel w).
Proof.
  intros H. unfold Debounce.cancel, Debounce.cleanup.
  wf_by_cases w H tid tms Hown.
Qed.

Lemma wf_debounce_abortHandler w :
  well_formed w -> well_formed (Debounce.abortHandler w).
Proof.
  intros H. unfold Debounce.abortHandler, Debounce.cleanup.
  wf_by_cases w H tid tms Hown.
Qed.

Lemma wf_set_timers_tail t tms w :
  well_formed w -> timers w = t :: tms -> well_formed (set_timers tms w).
Proof.
  intros [Hown Hp] Ht. split; [|exact Hp].
  unfold timers_owned in *. simpl. rewrite Ht in Hown.
  eapply owned_tail, Hown.
Qed.

Lemma wf_step (pol : Policy) c (e : Event Args R) w :
  well_formed w -> well_formed (step (engine_of pol) c e w).
Proof.
  intros H. destruct pol, e; simpl;
    auto using wf_throttle_invoke, wf_throttle_flush, wf_throttle_cancel,
      wf_throttle_resume, wf_debounce_invoke, wf_debounce_flush,
      wf_debounce_cancel, wf_debounce_resume.
  - unfold fire. destruct (timers w) eqn:Ht; simpl; [exact H|].
    eapply wf_throttle_timer, wf_set_timers_tail; eauto.
  - unfold signal_aborts. destruct (abortSignal c && negb (aborted w)); [|exact H].
    simpl. destruct (listener w); simpl; [|exact H].
    apply wf_throttle_abortHandler. exact H.
  - unfold fire. destruct (timers w) eqn:Ht; simpl; [exact H|].
    eapply wf_debounce_timer, wf_set_timers_tail; eauto.
  - unfold signal_aborts. destruct (abortSignal c && negb (aborted w)); [|exact H].
    simpl. destruct (listener w); simpl; [|exact H].
    apply wf_debounce_abortHandler. exact H.
Qed.

Lemma wf_initial c (signal : option bool) :
  well_formed (initial (Args:=Args) (R:=R) c signal).
Proof. repeat split. constructor. Qed.

(** Every state a wrapper can reach has at most one live timer, the one
    [timeoutId] names, and a paired promise slot. *)
Lemma wf_reachable (pol : Policy) c signal (es : list (Event Args R)) :
  well_formed (run (engine_of pol) c es (initial c signal)).
Proof.
  assert (G : forall w, well_formed w -> well_formed (run (engine_of pol) c es w)).
  { induction es as [|e es IH]; intros w H; simpl; [exact H|].
    apply IH, wf_step, H. }
  apply G, wf_initial.
Qed.

(** *** Cancel *)

(** With no live timer, an event that is not a request of the caller
    calls nothing and arms nothing. *)
Lemma quiet_step (pol : Policy) c (e : Event Args R) w :
  caller_request e = false ->
  timers w = [] ->
  timers (step (engine_of pol) c e w) = []
  /\ calls (step (engine_of pol) c e w) = calls w.
Proof.
  intros He Ht.
  destruct w as [tid lastT lArgs lRes pp rp jp ac burstFlag ps tms nt ab li cs].
  simpl in Ht. subst tms.
  destruct pol, e as [clk a| | |clk|k o|]; try discriminate He;
    unfold step, signal_aborts, fire; simpl;
    unfold Throttle.cancel, Debounce.cancel, Throttle.resume, Debounce.resume,
      Throttle.abortHandler, Debounce.abortHandler,
      Throttle.cleanup, Debounce.cleanup, clear_timer, clearTimeout,
      run_abortCleanup, clear_promise_slot, resolve_if_pending,
      reject_if_pending, settle; simpl;
    split_tests; simpl; auto.
Qed.

Lemma quiet_run (pol : Policy) c (es : list (Event Args R)) w :
  Forall (fun e => caller_request e = false) es ->
  timers w = [] ->
  calls (run (engine_of pol) c es w) = calls w.
Proof.
  intros Hes. revert w. induction Hes as [|e es He _ IH]; intros w Ht.
  - reflexivity.
  - destruct (quiet_step pol c e w He Ht) as [Ht' Hc'].
    change (run (engine_of pol) c (e :: es) w)
      with (run (engine_of pol) c es (step (engine_of pol) c e w)).
    rewrite IH by exact Ht'. exact Hc'.
Qed.

Lemma cancel_effect (pol : Policy) w :
  well_formed w ->
  let w' := rl_cancel (engine_of pol) w in
  timers w' = [] /\ timeoutId w' = None
  /\ (forall p, pendingPromise w = Some p ->
                promises w !! p = Some Pending ->
                promises w' !! p = Some (Rejected cancelled_error))
  /\ isPending w' = false
  /\ resolvePending w' = None /\ rejectPending w' = None
  /\ abortCleanup w' = None
  /\ lastExecTime w' = lastExecTime w /\ lastResult w' = lastResult w
  /\ calls w' = calls w
  /\ lastArgs w' = match pol with
                   | ThrottlePolicy => lastArgs w
                   | DebouncePolicy => None
                   end.
Proof.
  intros H w'. subst w'.
  open_instance w H; owned_cases tid tms Hown;
    destruct pol; simpl;
    unfold Throttle.cancel, Debounce.cancel, Debounce.cleanup, clear_timer,
      clearTimeout, run_abortCleanup, clear_promise_slot, reject_if_pending,
      settle, isPending; simpl;
    rewrite ?Hfilter;
    (split; [|split; [|split]];
     [ | | intros p -> Hpend; rewrite Hpend; simpl
       | split_tests; simpl; repeat split; reflexivity ]);
    split_tests; simpl; rewrite ?Hfilter; try reflexivity;
    apply list_lookup_insert_eq; eapply lookup_lt_Some; eassumption.
Qed.

(** *** Leading edge *)

Lemma clear_timer_fields w :
  lastExecTime (clear_timer w) = lastExecTime w
  /\ aborted (clear_timer w) = aborted w
  /\ calls (clear_timer w) = calls w
  /\ pendingPromise (clear_timer w) = pendingPromise w
  /\ lastArgs (clear_timer w) = lastArgs w
  /\ lastResult (clear_timer w) = lastResult w
  /\ promises (clear_timer w) = promises w.
Proof. unfold clear_timer. destruct (timeoutId w); simpl; repeat split. Qed.

Lemma leading_condition c now w :
  lastExecTime w = 0 \/ wait c <= now - lastExecTime w ->
  (lastExecTime w =? 0) || (wait c <=? now - lastExecTime w) = true.
Proof. intros H. apply orb_true_iff. rewrite Z.eqb_eq, Z.leb_le. exact H. Qed.

Lemma inside_window c now now2 :
  now <> 0 -> now2 - now < wait c ->
  (now =? 0) || (wait c <=? now2 - now) = false.
Proof.
  intros Hnz Hgap. apply orb_false_iff. rewrite Z.eqb_neq, Z.leb_gt. auto.
Qed.

Lemma throttle_leading_call c now (args : Args) w :
  signal_aborted c w = false ->
  leading c = true ->
  (lastExecTime w = 0 \/ wait c <= now - lastExecTime w) ->
  exists w1,
    Throttle.asyncThrottled c now args w = Calls w1 args KLeading
    /\ lastExecTime w1 = now
    /\ calls w1 = calls w ++ [args]
    /\ aborted w1 = aborted w.
Proof.
  intros Hsig Hlead Hdue. unfold Throttle.asyncThrottled.
  rewrite Hsig, Hlead, (leading_condition c now w Hdue). simpl.
  unfold Throttle.executeFunction.
  match goal with |- context [signal_aborted c ?x] =>
    set (w0 := x);
    assert (Hx : lastExecTime w0 = now /\ calls w0 = calls w
                 /\ aborted w0 = aborted w) end.
  { subst w0. destruct (trailing c); simpl;
      destruct (pendingPromise _); simpl;
      destruct (clear_timer_fields
                  (set_hasExecutedInCurrentBurst true (set_lastExecTime now w)))
        as (H1 & H2 & H3 & _); rewrite H1, H2, H3; simpl; auto. }
  destruct Hx as (H1 & H2 & H3).
  unfold signal_aborted in *. rewrite H3, Hsig.
  exists (call_fn args w0). split; [reflexivity|].
  change (lastExecTime w0 = now /\ calls w0 ++ [args] = calls w ++ [args]
          /\ aborted w0 = aborted w).
  rewrite H1, H2, H3. auto.
Qed.

Lemma throttle_resume_leading_fields (o : Outcome R) w :
  lastExecTime (Throttle.resume KLeading o w).1 = lastExecTime w
  /\ calls (Throttle.resume KLeading o w).1 = calls w
  /\ aborted (Throttle.resume KLeading o w).1 = aborted w.
Proof. destruct o; simpl; auto. Qed.

Lemma throttle_inside_window c now2 (args2 : Args) w :
  signal_aborted c w = false ->
  lastExecTime w <> 0 ->
  now2 - lastExecTime w < wait c ->
  exists w3 r,
    Throttle.asyncThrottled c now2 args2 w = Finished w3 r
    /\ calls w3 = calls w.
Proof.
  intros Hsig Hnz Hgap. unfold Throttle.asyncThrottled.
  rewrite Hsig, (inside_window c _ now2 Hnz Hgap), andb_false_r.
  assert (Ht : exists w3 r,
             Throttle.trailingEdge c now2 (now2 - lastExecTime w) args2 w
             = Finished w3 r /\ calls w3 = calls w).
  { unfold Throttle.trailingEdge. destruct (trailing c); [|eauto].
    unfold setTimeout. simpl.
    destruct (clear_timer_fields (set_lastArgs (Some args2) w))
      as (_ & _ & Hc & Hp & _).
    destruct (pendingPromise (clear_timer (set_lastArgs (Some args2) w)))
      eqn:Hpp; simpl; rewrite ?Hpp;
      eexists; eexists; (split; [reflexivity|]); simpl; rewrite Hc;
      reflexivity. }
  destruct (leading c && hasExecutedInCurrentBurst w
            && (now2 - lastExecTime w <? wait c)); [|exact Ht].
  destruct (negb (trailing c)); [eauto|exact Ht].
Qed.

Lemma debounce_leading_call c now (args : Args) w :
  signal_aborted c w = false ->
  leading c = true ->
  (lastExecTime w = 0 \/ wait c <= now - lastExecTime w) ->
  exists w1,
    Debounce.asyncDebounced c now args w = Calls w1 args KLeading
    /\ lastExecTime w1 = now
    /\ calls w1 = calls w ++ [args]
    /\ aborted w1 = aborted w.
Proof.
  intros Hsig Hlead Hdue. unfold Debounce.asyncDebounced.
  rewrite Hsig, Hlead.
  destruct (clear_timer_fields w) as (Ht & Ha & Hc & _).
  match goal with |- context [lastExecTime ?x =? 0] =>
    set (w0 := x);
    assert (Hx : lastExecTime w0 = lastExecTime w /\ calls w0 = calls w
                 /\ aborted w0 = aborted w) end.
  { subst w0. destruct (pendingPromise _); simpl; rewrite Ht, Ha, Hc; auto. }
  destruct Hx as (H1 & H2 & H3).
  rewrite H1, (leading_condition c now w Hdue). simpl.
  eexists. split; [reflexivity|].
  change (now = now /\ calls w0 ++ [args] = calls w ++ [args]
          /\ aborted w0 = aborted w).
  rewrite H2, H3. auto.
Qed.

Lemma debounce_resume_leading_fields (o : Outcome R) w :
  lastExecTime (Debounce.resume KLeading o w).1 = lastExecTime w
  /\ calls (Debounce.resume KLeading o w).1 = calls w
  /\ aborted (Debounce.resume KLeading o w).1 = aborted w.
Proof.
  destruct o; simpl; unfold resolve_if_pending, reject_if_pending.
  - destruct (resolvePending _); simpl; auto.
    match goal with |- context [settle ?p ?s ?x] =>
      destruct (settle_fields p s x)
        as (_ & H1 & _ & _ & _ & _ & _ & _ & _ & _ & _ & H2 & _ & H3) end.
    rewrite H1, H2, H3. auto.
  - destruct (rejectPending _); simpl; auto.
    match goal with |- context [settle ?p ?s ?x] =>
      destruct (settle_fields p s x)
        as (_ & H1 & _ & _ & _ & _ & _ & _ & _ & _ & _ & H2 & _ & H3) end.
    rewrite H1, H2, H3. auto.
Qed.

Lemma debounce_inside_window c now2 (args2 : Args) w :
  signal_aborted c w = false ->
  lastExecTime w <> 0 ->
  now2 - lastExecTime w < wait c ->
  exists w3 r,
    Debounce.asyncDebounced c now2 args2 w = Finished w3 r
    /\ calls w3 = calls w.
Proof.
  intros Hsig Hnz Hgap. unfold Debounce.asyncDebounced. rewrite Hsig.
  destruct (clear_timer_fields w) as (Ht & Ha & Hc & _).
  match goal with |- context [lastExecTime ?x =? 0] =>
    set (w0 := x);
    assert (Hx : lastExecTime w0 = lastExecTime w /\ calls w0 = calls w)
  end.
  { subst w0. destruct (pendingPromise _); simpl; rewrite Ht, Hc; auto. }
  destruct Hx as (H1 & H2).
  rewrite H1, (inside_window c _ now2 Hnz Hgap), andb_false_r.
  unfold setTimeout.
  subst w0.
  destruct (trailing c);
    destruct (pendingPromise (set_lastArgs (Some args2) (clear_timer w)))
      eqn:Hpp; simpl in *; rewrite ?Hpp; simpl;
    eexists; eexists; (split; [reflexivity|]); simpl; exact H2.
Qed.

(** C9. When a high- or medium-precision throttle or debounce wrapper
    takes the leading edge, the wrapped operation is entered in a state
    whose [lastExecTime] is already [now]; whatever the outcome of the
    operation, fulfilled or failed, [lastExecTime] is still [now] once it
    has settled, and an invocation arriving less than [wait] later reads
    it and does not call the operation again. *)
Theorem leading_edge_stamps_before_call (pol : Policy) c now (args : Args) w :
  signal_aborted c w = false ->
  leading c = true ->
  (lastExecTime w = 0 \/ wait c <= now - lastExecTime w) ->
  exists w1,
    rl_invoke (engine_of pol) c now args w = Calls w1 args KLeading
    /\ lastExecTime w1 = now
    /\ calls w1 = calls w ++ [args]
    /\ forall o : Outcome R,
         let w2 := (rl_resume (engine_of pol) KLeading o w1).1 in
         lastExecTime w2 = now
         /\ calls w2 = calls w1
         /\ forall now2 args2,
              now <> 0 -> now2 - now < wait c ->
              exists w3 r,
                rl_invoke (engine_of pol) c now2 args2 w2 = Finished w3 r
                /\ calls w3 = calls w1.
Proof.
  intros Hsig Hlead Hdue.
  destruct pol;
    cbn [engine_of rl_invoke rl_resume throttle_engine debounce_engine].
  - destruct (throttle_leading_call c now args w Hsig Hlead Hdue)
      as (w1 & Hstep & Ht & Hc & Ha).
    exists w1. split; [exact Hstep|split; [exact Ht|split; [exact Hc|]]].
    intros o.
    destruct (throttle_resume_leading_fields o w1) as (H1 & H2 & H3).
    split; [congruence|split; [exact H2|]].
    intros now2 args2 Hnz Hgap.
    rewrite <- H2. apply throttle_inside_window.
    + unfold signal_aborted in *. congruence.
    + congruence.
    + rewrite H1, Ht. exact Hgap.
  - destruct (debounce_leading_call c now args w Hsig Hlead Hdue)
      as (w1 & Hstep & Ht & Hc & Ha).
    exists w1. split; [exact Hstep|split; [exact Ht|split; [exact Hc|]]].
    intros o.
    destruct (debounce_resume_leading_fields o w1) as (H1 & H2 & H3).
    split; [congruence|split; [exact H2|]].
    intros now2 args2 Hnz Hgap.
    rewrite <- H2. apply debounce_inside_window.
    + unfold signal_aborted in *. congruence.
    + congruence.
    + rewrite H1, Ht. exact Hgap.
Qed.

(** *** Neither edge *)

Lemma throttle_neither_edge c now (args : Args) w :
  signal_aborted c w = false ->
  leading c = false ->
  trailing c = false ->
  Throttle.asyncThrottled c now args w = Finished w (Resolves (lastResult w)).
Proof.
  intros Hsig Hl Ht. unfold Throttle.asyncThrottled, Throttle.trailingEdge.
  rewrite Hsig, Hl, Ht. reflexivity.
Qed.

(** The debounce wrapper has no such return: with both edges off an
    invocation hands out the pending promise and arms nothing. *)
Lemma debounce_neither_edge_invoke c now (args : Args) w :
  signal_aborted c w = false ->
  leading c = false ->
  trailing c = false ->
  timers w = [] ->
  timeoutId w = None ->
  let p := default (length (promises w)) (pendingPromise w) in
  (pendingPromise w = None \/ promises w !! p = Some Pending) ->
  exists w',
    Debounce.asyncDebounced c now args w = Finished w' (Adopts p)
    /\ signal_aborted c w' = false
    /\ timers w' = []
    /\ timeoutId w' = None
    /\ pendingPromise w' = Some p
    /\ promises w' !! p = Some Pending
    /\ calls w' = calls w.
Proof.
  intros Hsig Hl Ht Htm Hid p Hp. subst p.
  unfold Debounce.asyncDebounced, clear_timer.
  rewrite Hsig, Hid, Hl, Ht. simpl.
  destruct (pendingPromise w) as [q|] eqn:Hpp; simpl; rewrite ?Hpp; simpl.
  - destruct Hp as [Hp|Hp]; [discriminate|].
    eexists. split; [reflexivity|]. simpl. repeat split; auto.
  - eexists. split; [reflexivity|]. simpl. repeat split; auto.
    apply list_lookup_middle. reflexivity.
Qed.

(** While the caller only invokes again and the host's timer ticks,
    that promise stays pending and nothing is called. *)
Lemma debounce_neither_edge_stays_pending c (es : list (Event Args R)) :
  leading c = false ->
  trailing c = false ->
  Forall (fun e => invocation_or_tick e = true) es ->
  forall w p,
    signal_aborted c w = false ->
    timers w = [] ->
    timeoutId w = None ->
    pendingPromise w = Some p ->
    promises w !! p = Some Pending ->
    promises (run debounce_engine c es w) !! p = Some Pending
    /\ calls (run debounce_engine c es w) = calls w
    /\ timers (run debounce_engine c es w) = [].
Proof.
  intros Hl Ht Hes. induction Hes as [|e es He _ IH];
    intros w p Hsig Htm Hid Hpp Hp; [auto|].
  change (run debounce_engine c (e :: es) w)
    with (run debounce_engine c es (step debounce_engine c e w)).
  destruct e as [clk a| | |clk|k o|]; try discriminate He.
  - destruct (debounce_neither_edge_invoke c (read_clock (precision c) clk)
                a w Hsig Hl Ht Htm Hid) as (w' & Hst & H1 & H2 & H3 & H4 & H5 & H6).
    { right. rewrite Hpp. exact Hp. }
    rewrite Hpp in Hst, H4, H5. simpl in Hst, H4, H5.
    unfold step. cbn [rl_invoke debounce_engine]. rewrite Hst. simpl.
    destruct (IH w' p H1 H2 H3 H4 H5) as (G1 & G2 & G3).
    rewrite G2, H6. auto.
  - unfold step, fire. rewrite Htm. simpl. apply IH; assumption.
Qed.

(** *** Flush of the throttle wrappers *)


(** *** Debounce: a burst on the trailing edge *)

Lemma armed_owned c t (a : Args) w : armed_for c t a w -> timers_owned w.
Proof.
  intros (id & Ht & Hid & _). unfold timers_owned. rewrite Ht, Hid.
  repeat constructor.
Qed.

Lemma debounce_trailing_arms c (fn : nat -> Args -> Outcome R) t a w :
  leading c = false ->
  trailing c = true ->
  truthy (maxWait c) = None ->
  wait c <= TIMEOUT_MAX ->
  signal_aborted c w = false ->
  timers_owned w ->
  let w' := (complete debounce_engine fn (Debounce.asyncDebounced c t a w)).1 in
  armed_for c t a w' /\ calls w' = calls w /\ aborted w' = aborted w.
Proof.
  intros Hl Ht Hm Hmax Hsig Hown w'. subst w'.
  unfold Debounce.asyncDebounced, Debounce.trailing_delay.
  rewrite Hsig, Hl, Ht, Hm, (clear_timer_owned w Hown). simpl.
  unfold armed_for, newPendingPromise, setTimeout.
  rewrite (host_delay_in_range (wait c) Hmax).
  split_tests; (split; [eexists; eauto|auto]).
Qed.

Lemma armed_not_due c (fn : nat -> Args -> Outcome R) t t' a w :
  armed_for c t a w ->
  t <= t' -> t' - t < wait c ->
  fire_due debounce_engine c fn t' w = w.
Proof.
  intros (id & Htm & _) Hle Hgap. unfold fire_due. rewrite Htm.
  destruct (t + Z.max 0 (wait c) <=? t') eqn:Hdue; [|reflexivity].
  apply Z.leb_le in Hdue. lia.
Qed.

Lemma burst_stays_armed c (fn : nat -> Args -> Outcome R) invs :
  leading c = false ->
  trailing c = true ->
  truthy (maxWait c) = None ->
  wait c <= TIMEOUT_MAX ->
  forall t a w,
    armed_for c t a w ->
    signal_aborted c w = false ->
    gaps_below (wait c) t invs ->
    exists t' a',
      last ((t, a) :: invs) = Some (t', a')
      /\ armed_for c t' a' (burst debounce_engine c fn invs w)
      /\ calls (burst debounce_engine c fn invs w) = calls w.
Proof.
  intros Hl Ht Hm Hmax. induction invs as [|[t1 a1] invs IH]; intros t a w Harm Hsig Hg.
  - exists t, a. simpl. auto.
  - destruct Hg as (Hle & Hgap & Hg). simpl.
    rewrite (armed_not_due c fn t t1 a w Harm Hle Hgap).
    destruct (debounce_trailing_arms c fn t1 a1 w Hl Ht Hm Hmax Hsig
                (armed_owned c t a w Harm)) as (Harm1 & Hc1 & Ha1).
    cbn [rl_invoke debounce_engine].
    destruct (IH t1 a1 _ Harm1) as (t' & a' & Hlast & Harm' & Hc'); auto.
    { unfold signal_aborted in *. rewrite Ha1. exact Hsig. }
    exists t', a'. split; [|split; [exact Harm'|congruence]].
    rewrite <- Hlast. destruct invs; reflexivity.
Qed.

Lemma quiesce_fires_armed c (fn : nat -> Args -> Outcome R) t a w :
  armed_for c t a w ->
  let w' := quiesce debounce_engine c fn w in
  calls w' = calls w ++ [a]
  /\ lastExecTime w' = t + Z.max 0 (wait c)
  /\ timers w' = [].
Proof.
  intros (id & Htm & Hid & Hla) w'. subst w'.
  destruct w as [tid lastT lArgs lRes pp rp jp ac burstFlag ps tms nt ab li cs].
  simpl in *. subst tms tid lArgs.
  unfold quiesce, fire, complete; simpl.
  unfold resolve_if_pending, reject_if_pending, clear_promise_slot, settle.
  destruct (fn _ a); simpl; split_tests; auto.
Qed.

Lemma debounce_burst_law c (fn : nat -> Args -> Outcome R)
    (invs : list (Z * Args)) w t_last a_last :
  leading c = false ->
  trailing c = true ->
  truthy (maxWait c) = None ->
  wait c <= TIMEOUT_MAX ->
  signal_aborted c w = false ->
  timers w = [] ->
  is_burst (wait c) invs ->
  last invs = Some (t_last, a_last) ->
  let w' := quiesce debounce_engine c fn (burst debounce_engine c fn invs w) in
  calls w' = calls w ++ [a_last]
  /\ lastExecTime w' = t_last + Z.max 0 (wait c)
  /\ timers w' = [].
Proof.
  intros Hl Ht Hm Hmax Hsig Htm Hb Hlast w'. subst w'.
  destruct invs as [|[t0 a0] invs]; [contradiction|]. simpl in Hb.
  assert (Hb' : burst debounce_engine c fn ((t0, a0) :: invs) w
                = burst debounce_engine c fn invs
                    (complete debounce_engine fn
                       (Debounce.asyncDebounced c t0 a0 w)).1).
  { simpl. unfold fire_due. rewrite Htm. reflexivity. }
  rewrite Hb'. clear Hb'.
  assert (Hown : timers_owned w) by (unfold timers_owned; rewrite Htm; constructor).
  destruct (debounce_trailing_arms c fn t0 a0 w Hl Ht Hm Hmax Hsig Hown)
    as (Harm & Hc & Ha).
  destruct (burst_stays_armed c fn invs Hl Ht Hm Hmax t0 a0 _ Harm) as
    (t' & a' & Hlast' & Harm' & Hc'); auto.
  { unfold signal_aborted in *. rewrite Ha. exact Hsig. }
  rewrite Hlast in Hlast'. injection Hlast' as <- <-.
  destruct (quiesce_fires_armed c fn t_last a_last _ Harm') as (H1 & H2 & H3).
  rewrite Hc', Hc in H1. auto.
Qed.

(** ** The claims about the promise-carrying wrappers *)

(** C7. For a high- or medium-precision wrapper in a well-formed state
    (every reachable state is one, [wf_reachable]), [cancel()] leaves no
    live timer, rejects the outstanding [pendingPromise], if any, with
    the cancellation error, whose name is [AbortError], and clears the
    promise slot and [abortCleanup]; throttle keeps [lastArgs] and
    debounce clears it; afterwards [isPending()] is false and, whatever
    the host does next (timer ticks, settled operations, the abort
    signal, further cancels), the wrapped operation is not called until
    the caller invokes or flushes the wrapper again. *)
Theorem cancel_rejects_pending_and_quiets (pol : Policy) c w :
  well_formed w ->
  let w' := rl_cancel (engine_of pol) w in
  timers w' = [] /\ timeoutId w' = None
  /\ (forall p, pendingPromise w = Some p ->
                promises w !! p = Some Pending ->
                promises w' !! p = Some (Rejected cancelled_error))
  /\ error_name cancelled_error = "AbortError"%string
  /\ resolvePending w' = None /\ rejectPending w' = None
  /\ abortCleanup w' = None
  /\ lastArgs w' = match pol with
                   | ThrottlePolicy => lastArgs w
                   | DebouncePolicy => None
                   end
  /\ isPending w' = false
  /\ forall es : list (Event Args R),
       Forall (fun e => caller_request e = false) es ->
       calls (run (engine_of pol) c es w') = calls w.
Proof.
  intros H w'.
  destruct (cancel_effect pol w H)
    as (Ht & Hid & Hp & Hpend & Hr & Hj & Hac & _ & _ & Hc & Hla).
  fold w' in Ht, Hid, Hp, Hpend, Hr, Hj, Hac, Hc, Hla.
  repeat split; auto.
  intros es Hes. rewrite <- Hc. apply quiet_run; assumption.
Qed.

(** The throttle wrapper with [leading] and [trailing] both false: an
    invocation made while the abort signal has not fired changes
    nothing, calls nothing, and returns a promise resolved with the
    previous [lastResult]. *)
Lemma throttle_neither_edge_answers_lastResult c now (args : Args) w :
  signal_aborted c w = false ->
  leading c = false ->
  trailing c = false ->
  rl_invoke throttle_engine c now args w
  = Finished w (Resolves (lastResult w))
  /\ answers_lastResult throttle_engine c now args w.
Proof.
  intros Hsig Hl Ht.
  pose proof (throttle_neither_edge c now args w Hsig Hl Ht) as H.
  split; [exact H|]. exists w, (Resolves (lastResult w)).
  split; [exact H|]. split; reflexivity.
Qed.

(** C3, as amended. For a high- or medium-precision debounce wrapper
    with [trailing] true, [leading] false, no [maxWait] and a [wait] the
    host's timers honour (at most [TIMEOUT_MAX]), whose abort signal has
    not fired and which has no timer armed, a burst of invocations whose
    gaps are all below [wait] causes exactly one call of the wrapped
    operation, with the arguments of the last invocation, [wait] ms
    after that invocation (at once when [wait] is not positive); no
    timer is left armed. *)
Theorem debounce_burst_one_trailing_call c (fn : nat -> Args -> Outcome R)
    (invs : list (Z * Args)) w t_last a_last :
  leading c = false ->
  trailing c = true ->
  truthy (maxWait c) = None ->
  wait c <= TIMEOUT_MAX ->
  signal_aborted c w = false ->
  timers w = [] ->
  is_burst (wait c) invs ->
  last invs = Some (t_last, a_last) ->
  let w' := quiesce debounce_engine c fn (burst debounce_engine c fn invs w) in
  calls w' = calls w ++ [a_last]
  /\ lastExecTime w' = t_last + Z.max 0 (wait c)
  /\ timers w' = []
  /\ one_call_with_last_args debounce_engine c fn invs w.
Proof.
  intros Hl Ht Hm Hmax Hsig Htm Hb Hlast w'.
  destruct (debounce_burst_law c fn invs w t_last a_last Hl Ht Hm Hmax Hsig
              Htm Hb Hlast) as (H1 & H2 & H3).
  fold w' in H1, H2, H3. repeat split; auto.
  exists t_last, a_last. split; [exact Hlast|exact H1].
Qed.

End EngineFacts.

(** ** The wrappers at concrete inputs *)

Open Scope string_scope.

(** Reachable states need no side condition: a throttle wrapper is
    invoked, then cancelled. *)
Lemma cancel_rejects_pending_and_quiets_witness :
  let c := Throttle.config HIGH 100
             {| opt_leading := Some false; opt_trailing := None;
                opt_maxWait := None; opt_abortSignal := None;
                opt_precision := None |} in
  let w : Instance string string :=
    after (Throttle.asyncThrottled c 1000 "a" (initial c None)) in
  well_formed w
  /\ promises (Throttle.cancel w) !! 0%nat = Some (Rejected cancelled_error)
  /\ isPending (Throttle.cancel w) = false
  /\ calls (run throttle_engine c
              [TimerFires {| performance_now := 1100; Date_now := 1100 |};
               SignalAborts; Settles KTimer (Fulfilled "r")]
              (Throttle.cancel w)) = [].
Proof.
  intros c w.
  assert (H : well_formed w) by (repeat split; repeat constructor).
  destruct (cancel_rejects_pending_and_quiets ThrottlePolicy c w H)
    as (_ & _ & Hp & _ & _ & _ & _ & _ & Hpend & Hquiet).
  split; [exact H|]. split; [apply Hp; reflexivity|]. split; [exact Hpend|].
  apply Hquiet. repeat constructor.
Defined.

(** A leading debounce whose operation fails still has its
    [lastExecTime] stamped. *)
Lemma leading_edge_stamps_before_call_witness :
  let c := Debounce.config MEDIUM 100
             {| opt_leading := Some true; opt_trailing := None;
                opt_maxWait := None; opt_abortSignal := None;
                opt_precision := Some MEDIUM |} in
  let w0 : Instance string string := initial c None in
  exists w1,
    Debounce.asyncDebounced c 1000 "a" w0 = Calls w1 "a" KLeading
    /\ lastExecTime w1 = 1000
    /\ lastExecTime (Debounce.resume KLeading (Failed (Thrown "boom")) w1).1
       = 1000.
Proof.
  intros c w0.
  destruct (leading_edge_stamps_before_call DebouncePolicy c 1000 "a" w0)
    as (w1 & Hstep & Ht & _ & Hafter).
  - reflexivity.
  - reflexivity.
  - left. reflexivity.
  - exists w1. split; [exact Hstep|]. split; [exact Ht|].
    apply (Hafter (Failed (Thrown "boom"))).
Defined.

(** Ten invocations 50 ms apart on a 100 ms debounce: one call, with the
    last arguments, 100 ms after the last invocation. *)
Lemma debounce_burst_one_trailing_call_witness :
  let c := Debounce.config HIGH 100 no_options in
  let invs := [(1000, "arg0"); (1050, "arg1"); (1100, "arg2"); (1150, "arg3");
               (1200, "arg4"); (1250, "arg5"); (1300, "arg6"); (1350, "arg7");
               (1400, "arg8"); (1450, "arg9")] in
  let fn := fun (_ : nat) (_ : string) => Fulfilled "result" in
  let w' : Instance string string :=
    quiesce debounce_engine c fn
      (burst debounce_engine c fn invs (initial c None)) in
  calls w' = ["arg9"] /\ lastExecTime w' = 1550.
Proof.
  intros c invs fn w'.
  destruct (debounce_burst_one_trailing_call c fn invs (initial c None)
              1450 "arg9") as (H1 & H2 & _).
  - reflexivity.
  - reflexivity.
  - reflexivity.
  - unfold TIMEOUT_MAX. simpl. lia.
  - reflexivity.
  - reflexivity.
  - simpl. lia.
  - reflexivity.
  - split; [exact H1|exact H2].
Defined.

(** C1, the code at the failing input. A throttle or debounce wrapper
    built with an abort signal is invoked once on the trailing edge, so
    that promise 0 is pending and a timer is armed; then the signal
    fires. The timer is cleared and the listener removed, but
    [cleanup()] has emptied the promise slot before the handler looks at
    it: promise 0 is not rejected, the wrapper no longer reports it as
    pending, and nothing that happens afterwards settles it. *)
Theorem abort_leaves_pending_callers_unsettled
    (pol : Policy) (tier : PrecisionTier) :
  let o := {| opt_leading := Some false; opt_trailing := Some true;
              opt_maxWait := None; opt_abortSignal := Some false;
              opt_precision := Some tier |} in
  let c := rl_config (engine_of (Args:=string) (R:=string) pol) tier 100 o in
  let w1 : Instance string string :=
    after (rl_invoke (engine_of pol) c 1000 "a" (initial c (Some false))) in
  let w2 := signal_aborts (engine_of pol) c w1 in
  pendingPromise w1 = Some 0%nat
  /\ promises w1 !! 0%nat = Some Pending
  /\ timers w1 = [(1%nat, 1100)]
  /\ aborted w2 = true
  /\ timers w2 = []
  /\ listener w2 = false
  /\ isPending w2 = false
  /\ forall es : list (Event string string),
       promises (run (engine_of pol) c es w2) !! 0%nat = Some Pending.
Proof.
  intros o c w1 w2.
  assert (Horph : orphaned 0 w2)
    by (destruct pol, tier; repeat split; discriminate).
  repeat (split; [destruct pol, tier; reflexivity|]).
  intros es. apply orphaned_forever. exact Horph.
Qed.

(** The abort listeners never touch the promise store, whatever the
    state they run in. *)
Lemma abortHandler_settles_nothing {Args R : Type} (pol : Policy)
    (w : Instance Args R) :
  promises (rl_abortHandler (engine_of pol) w) = promises w.
Proof.
  destruct w as [tid lastT lArgs lRes pp rp jp ac burstFlag ps tms nt ab li cs].
  destruct pol; simpl;
    unfold Throttle.abortHandler, Debounce.abortHandler, Throttle.cleanup,
      Debounce.cleanup, reject_if_pending, clear_promise_slot,
      run_abortCleanup, clear_timer; simpl;
    destruct tid, ac as [[|]|]; reflexivity.
Qed.

(** C2, the code at the failing input. A debounce wrapper is invoked
    once, so that promise 0 is pending, and then flushed while the
    wrapped operation succeeds with ["r"]. The operation is called with
    the stored arguments, [flush()] returns ["r"], [lastResult] is
    updated and [isPending()] is false, but [cleanup()] has dropped the
    promise slot before the call: promise 0 is not resolved, and nothing
    that happens afterwards settles it. *)
Theorem debounce_flush_leaves_pending_callers_unsettled
    (tier : PrecisionTier) :
  let c := Debounce.config tier 100 no_options in
  let w1 : Instance string string :=
    after (Debounce.asyncDebounced c 1000 "a" (initial c None)) in
  let fn := fun (_ : nat) (_ : string) => Fulfilled "r" in
  let r := complete debounce_engine fn (Debounce.flush c w1) in
  pendingPromise w1 = Some 0%nat
  /\ promises w1 !! 0%nat = Some Pending
  /\ calls r.1 = ["a"]
  /\ r.2 = Resolves (Some "r")
  /\ lastResult r.1 = Some "r"
  /\ isPending r.1 = false
  /\ forall es : list (Event string string),
       promises (run debounce_engine c es r.1) !! 0%nat = Some Pending.
Proof.
  intros c w1 fn r.
  assert (Horph : orphaned 0 r.1)
    by (destruct tier; repeat split; discriminate).
  repeat (split; [destruct tier; reflexivity|]).
  intros es. apply (orphaned_forever 0 DebouncePolicy). exact Horph.
Qed.

(** The other branch of the debounce [flush]: with the signal fired
    after the listener was removed by an earlier [cancel()], [flush()]
    returns [lastResult] and leaves the pending promise in place. *)
Lemma debounce_flush_on_aborted_signal_stays_pending :
  let o := {| opt_leading := None; opt_trailing := None; opt_maxWait := None;
              opt_abortSignal := Some false; opt_precision := None |} in
  let c := Debounce.config HIGH 100 o in
  let clk := {| performance_now := 1000; Date_now := 1000 |} in
  let w : Instance string string :=
    run debounce_engine c
      [Invoke clk "a"; CancelCalled; Invoke clk "b"; SignalAborts]
      (initial c (Some false)) in
  Debounce.flush c w = Finished w (Resolves None)
  /\ isPending w = true
  /\ promises w !! 1%nat = Some Pending.
Proof. intros o c clk w. vm_compute. repeat split. Qed.

(** C3, the claim as stated fails. A debounce with [wait = 100] and
    [maxWait = 300] receives six invocations 70 ms apart: the timer
    armed at 280 is cut to 20 ms, fires at 300 with ["e"], and the last
    invocation causes a second call with ["f"]. *)
Lemma suppression_law_fails_with_maxWait :
  let c := Debounce.config HIGH 100
             {| opt_leading := None; opt_trailing := None;
                opt_maxWait := Some 300; opt_abortSignal := None;
                opt_precision := None |} in
  let invs := [(0, "a"); (70, "b"); (140, "c"); (210, "d"); (280, "e");
               (350, "f")] in
  let fn := fun (_ : nat) (_ : string) => Fulfilled "result" in
  let w0 : Instance string string := initial c None in
  leading c = false /\ trailing c = true /\ is_burst (wait c) invs
  /\ calls (quiesce debounce_engine c fn (burst debounce_engine c fn invs w0))
     = ["e"; "f"]
  /\ ~ one_call_with_last_args debounce_engine c fn invs w0.
Proof.
  intros c invs fn w0.
  split; [reflexivity|]. split; [reflexivity|].
  split; [simpl; lia|]. split; [reflexivity|].
  intros (t & args & _ & H). vm_compute in H. destruct args; discriminate.
Qed.

(** With [maxWait] set the delay is measured from [lastExecTime], which
    is 0 on a fresh wrapper: at a clock reading of 1000 the first timer
    is due at once, so even a two-call burst shorter than [maxWait]
    causes two calls. *)
Lemma maxWait_is_measured_from_lastExecTime :
  let c := Debounce.config HIGH 100
             {| opt_leading := None; opt_trailing := None;
                opt_maxWait := Some 300; opt_abortSignal := None;
                opt_precision := None |} in
  let fn := fun (_ : nat) (_ : string) => Fulfilled "result" in
  let w0 : Instance string string := initial c None in
  calls (quiesce debounce_engine c fn
           (burst debounce_engine c fn [(1000, "a"); (1050, "b")] w0))
  = ["a"; "b"].
Proof. vm_compute. reflexivity. Qed.

(** The host's timer limit is why the amended suppression law asks for
    [wait <= TIMEOUT_MAX]: a debounce with a [wait] of 3,000,000,000 ms
    has each of its timers run after 1 ms, so two invocations 50 ms
    apart cause two calls. *)
Lemma suppression_law_fails_beyond_timer_limit :
  let c := Debounce.config HIGH 3000000000 no_options in
  let fn := fun (_ : nat) (_ : string) => Fulfilled "result" in
  let w0 : Instance string string := initial c None in
  is_burst (wait c) [(1000, "a"); (1050, "b")]
  /\ calls (quiesce debounce_engine c fn
              (burst debounce_engine c fn [(1000, "a"); (1050, "b")] w0))
     = ["a"; "b"].
Proof. vm_compute. repeat split; discriminate. Qed.

(** C6, the code at the failing input. A debounce wrapper built with
    [leading] and [trailing] both false is invoked once. Nothing is
    called, as the claim says, but the wrapper has no return for the
    case that neither edge fires: it hands out its [pendingPromise] and
    arms no timer. The promise is pending and stays so, with nothing
    called, however often the caller invokes the wrapper again and
    however many timer ticks pass. The throttle wrapper built from the
    same options returns a promise resolved with [lastResult]. *)
Theorem debounce_neither_edge_returns_unsettled_promise
    (tier : PrecisionTier) :
  let o := {| opt_leading := Some false; opt_trailing := Some false;
              opt_maxWait := None; opt_abortSignal := None;
              opt_precision := Some tier |} in
  let cd := Debounce.config tier 100 o in
  let wd : Instance string string := initial cd None in
  let ct := Throttle.config tier 100 o in
  let wt : Instance string string := initial ct None in
  (exists w',
     Debounce.asyncDebounced cd 1000 "a" wd = Finished w' (Adopts 0)
     /\ observed w' (Adopts 0) = Pending
     /\ timers w' = []
     /\ calls w' = []
     /\ forall es : list (Event string string),
          Forall (fun e => invocation_or_tick e = true) es ->
          observed (run debounce_engine cd es w') (Adopts 0) = Pending
          /\ calls (run debounce_engine cd es w') = [])
  /\ ~ answers_lastResult debounce_engine cd 1000 "a" wd
  /\ Throttle.asyncThrottled ct 1000 "a" wt = Finished wt (Resolves None)
  /\ answers_lastResult throttle_engine ct 1000 "a" wt.
Proof.
  intros o cd wd ct wt.
  split; [|split; [|split]].
  - destruct (debounce_neither_edge_invoke cd 1000 "a" wd)
      as (w' & Hst & Hsig & Htm & Hid & Hpp & Hp & Hc);
      try reflexivity; [left; reflexivity|].
    exists w'. split; [exact Hst|]. unfold observed.
    split; [simpl in Hp; rewrite Hp; reflexivity|].
    split; [exact Htm|]. split; [exact Hc|].
    intros es Hes.
    destruct (debounce_neither_edge_stays_pending cd es eq_refl eq_refl Hes
                w' 0%nat Hsig Htm Hid Hpp Hp) as (G1 & G2 & _).
    rewrite G1, G2. split; [reflexivity|exact Hc].
  - intros (w' & r & Hstep & Hobs & _). vm_compute in Hstep.
    injection Hstep as <- <-. discriminate Hobs.
  - reflexivity.
  - exists wt, (Resolves None). repeat split.
Qed.



(** C8, the code at the failing input. A batch throttle with
    [batchSize] 2 whose batch function throws is invoked twice. The
    second invocation fills the buffer and flushes synchronously, and
    the whole buffer is handed over in arrival order, as the claim says;
    but the exception leaves [flush] before [batch = []] and
    [firstBatchTime = 0] run, so the buffer and [firstBatchTime] are
    left as they were and the exception reaches the caller. With a
    batch function that returns, the same invocation clears both. *)
Theorem batch_flush_keeps_buffer_when_fn_throws :
  let c := Batch.config 100 {| opt_batchSize := Some 2;
                               opt_batchMaxWait := None |} in
  let boom := fun (_ : nat) (_ : list string) =>
                Throw (A:=unit) (Thrown "boom") in
  let ok := fun (_ : nat) (_ : list string) => Normal tt in
  let w1 := (Batch.batched boom c 1000 "a" Batch.initial).1 in
  let r := Batch.batched boom c 1010 "b" w1 in
  let r' := Batch.batched ok c 1010 "b" w1 in
  Batch.calls w1 = [] /\ Batch.batch w1 = ["a"]
  /\ Batch.calls r.1 = [["a"; "b"]]
  /\ r.2 = Throw (Thrown "boom")
  /\ Batch.batch r.1 = ["a"; "b"]
  /\ Batch.firstBatchTime r.1 = 1000
  /\ Batch.calls r'.1 = [["a"; "b"]]
  /\ Batch.batch r'.1 = []
  /\ Batch.firstBatchTime r'.1 = 0.
Proof. vm_compute. repeat split. Qed.

(** C10, the code at the failing input. A batch throttle with the
    default options is invoked once and its timer fires; the batch
    function throws on its first call and returns afterwards. The
    buffer handed over is not empty, as the claim says, but right after
    that call the buffer still holds the item and [firstBatchTime] is
    not reset, with no timer left to flush it; the next invocation hands
    the same item over again. *)
Theorem batch_buffer_survives_a_throwing_flush :
  let c := Batch.config 100 {| opt_batchSize := None;
                               opt_batchMaxWait := None |} in
  let fn := fun (n : nat) (_ : list string) =>
              if (n =? 1)%nat then Throw (Thrown "boom") else Normal tt in
  let w1 := Batch.run fn c [Batch.Invoked 1000 "a"; Batch.TimerFired]
              Batch.initial in
  let w2 := Batch.step fn c (Batch.Invoked 2000 "b") w1 in
  Batch.calls w1 = [["a"]]
  /\ Batch.batch w1 = ["a"]
  /\ Batch.firstBatchTime w1 = 1000
  /\ Batch.timers w1 = []
  /\ Batch.calls w2 = [["a"]; ["a"; "b"]]
  /\ Batch.batch w2 = [].
Proof. vm_compute. repeat split. Qed.

(** With [batchSize = 0] the wrapper built flushes on every invocation. *)
Lemma batch_size_zero_flushes_every_call :
  let c := Batch.config 100 {| opt_batchSize := Some 0;
                               opt_batchMaxWait := None |} in
  Batch.calls (Batch.run (fun _ _ => Normal tt) c
                 [Batch.Invoked 1000 "a"; Batch.Invoked 1001 "b"]
                 Batch.initial)
  = [["a"]; ["b"]].
Proof. reflexivity. Qed.

(** When the options omit [trailing], the high and medium tiers build a
    wrapper with [trailing] true and the low tier one with [trailing]
    false. *)
Lemma throttle_trailing_default_by_tier {Args R : Type}
    (wait : Z) (lead : option bool) (mw : option Z) (sig : option bool)
    (tier : option PrecisionTier) :
  exists x,
    throttle (Args:=Args) (R:=R) wait
      {| opt_leading := lead; opt_trailing := None; opt_maxWait := mw;
         opt_abortSignal := sig; opt_precision := tier |} = Normal x
    /\ wrapper_trailing x = match default HIGH tier with
                            | LOW => false
                            | _ => true
                            end.
Proof.
  unfold throttle; simpl. destruct (default HIGH tier); eexists;
    split; reflexivity.
Qed.

(** C5, the code at the failing input. [throttle] at the low tier with
    [trailing] omitted builds a wrapper whose [trailing] is false: the
    first invocation runs on the leading edge, and the second, 50 ms
    later and inside the window, is dropped with no timer armed. The
    same two invocations at the high tier leave a trailing timer armed. *)
Theorem low_precision_throttle_trailing_defaults_off :
  let o := {| opt_leading := None; opt_trailing := None; opt_maxWait := None;
              opt_abortSignal := None; opt_precision := Some LOW |} in
  (exists c w0,
     throttle (Args:=string) (R:=string) 100 o = Normal (LowWrapper c w0)
     /\ Low.trailing c = false
     /\ let w2 := Low.throttled c 1050 "b" (Low.throttled c 1000 "a" w0) in
        Low.calls w2 = ["a"] /\ Low.timers w2 = [] /\ Low.lastArgs w2 = None)
  /\ (let c := Throttle.config HIGH 100 no_options in
      let w2 : Instance string string :=
        after (Throttle.asyncThrottled c 1050 "b"
                 (after (Throttle.asyncThrottled c 1000 "a"
                           (initial c None)))) in
      trailing c = true /\ calls w2 = ["a"] /\ timers w2 = [(1%nat, 1150)]
      /\ lastArgs w2 = Some "b").
Proof.
  intros o. split.
  - eexists. eexists. split; [reflexivity|]. vm_compute. repeat split.
  - vm_compute. repeat split.
Qed.

(** * Further properties of the wrappers *)

Close Scope string_scope.

(** ** The promise-carrying engines *)
Section EngineMore.
Context {Args R : Type}.
Implicit Types (w : Instance Args R) (c : Config) (p : nat).

(** *** Operations as straight-line field updates *)

Lemma settle_as_update p (s : PromiseState R) w :
  settle p s w
  = set_promises match promises w !! p with
                 | Some Pending => <[p := s]> (promises w)
                 | _ => promises w
                 end w.
Proof.
  unfold settle. destruct w; simpl.
  destruct (_ !! _) as [[| |]|]; reflexivity.
Qed.

Lemma resolve_as_update v w :
  resolve_if_pending v w
  = set_promises match resolvePending w with
                 | Some p => match promises w !! p with
                             | Some Pending => <[p := Resolved v]> (promises w)
                             | _ => promises w
                             end
                 | None => promises w
                 end w.
Proof.
  unfold resolve_if_pending. destruct (resolvePending w).
  - apply settle_as_update.
  - destruct w; reflexivity.
Qed.

Lemma reject_as_update e w :
  reject_if_pending e w
  = set_promises match rejectPending w with
                 | Some p => match promises w !! p with
                             | Some Pending => <[p := Rejected e]> (promises w)
                             | _ => promises w
                             end
                 | None => promises w
                 end w.
Proof.
  unfold reject_if_pending. destruct (rejectPending w).
  - apply settle_as_update.
  - destruct w; reflexivity.
Qed.

Lemma clear_timer_as_update w :
  clear_timer w
  = set_timeoutId None
      (set_timers match timeoutId w with
                  | Some id => filter (fun t : nat * Z => t.1 <> id) (timers w)
                  | None => timers w
                  end w).
Proof.
  unfold clear_timer, clearTimeout.
  destruct w as [[tid|] ? ? ? ? ? ? ? ? ? ? ? ? ? ?]; reflexivity.
Qed.

Lemma run_abortCleanup_as_update w :
  run_abortCleanup w
  = set_abortCleanup None
      (set_listener match abortCleanup w with
                    | Some RemoveAbortListener => false
                    | _ => listener w
                    end w).
Proof.
  unfold run_abortCleanup.
  destruct w as [? ? ? ? ? ? ? [[|]|] ? ? ? ? ? ? ?]; reflexivity.
Qed.

Ltac straighten :=
  rewrite ?clear_timer_as_update, ?run_abortCleanup_as_update,
    ?resolve_as_update, ?reject_as_update, ?settle_as_update.

Ltac case_test :=
  match goal with
  | |- context [match ?x with _ => _ end] =>
      lazymatch x with
      | context [match _ with _ => _ end] => fail
      | _ => destruct x eqn:?
      end
  end.

Ltac open_ops :=
  unfold Throttle.asyncThrottled, Throttle.trailingEdge, Throttle.timerCallback,
    Throttle.executeFunction, Throttle.flush, Throttle.cancel, Throttle.resume,
    Throttle.abortHandler, Throttle.cleanup,
    Debounce.asyncDebounced, Debounce.timerCallback, Debounce.executeFunction,
    Debounce.flush, Debounce.cancel, Debounce.resume, Debounce.abortHandler,
    Debounce.cleanup, signal_aborts, fire, signal_aborted, setTimeout,
    clear_promise_slot, call_fn, newPendingPromise.

Ltac crunch :=
  unfold step;
  repeat first [progress open_ops | progress straighten | progress simpl
               | case_test].

Lemma clear_timer_idle w : timeoutId w = None -> clear_timer w = w.
Proof. intros H. unfold clear_timer. rewrite H. reflexivity. Qed.

Lemma reject_if_pending_idle e w :
  rejectPending w = None -> reject_if_pending e w = w.
Proof. intros H. unfold reject_if_pending. rewrite H. reflexivity. Qed.

Lemma resolve_if_pending_idle v w :
  resolvePending w = None -> resolve_if_pending v w = w.
Proof. intros H. unfold resolve_if_pending. rewrite H. reflexivity. Qed.

Lemma run_abortCleanup_idle w : abortCleanup w = None -> run_abortCleanup w = w.
Proof. intros H. unfold run_abortCleanup. rewrite H. reflexivity. Qed.

Lemma clear_promise_slot_idle w :
  pendingPromise w = None -> resolvePending w = None -> rejectPending w = None ->
  clear_promise_slot w = w.
Proof. destruct w; simpl; intros; subst; reflexivity. Qed.

Lemma set_lastArgs_idle w : lastArgs w = None -> set_lastArgs None w = w.
Proof. destruct w; simpl; intros; subst; reflexivity. Qed.

Lemma cancel_clears (pol : Policy) w :
  let w' := rl_cancel (engine_of pol) w in
  timeoutId w' = None /\ pendingPromise w' = None /\ resolvePending w' = None
  /\ rejectPending w' = None /\ abortCleanup w' = None
  /\ lastResult w' = lastResult w /\ lastExecTime w' = lastExecTime w
  /\ calls w' = calls w /\ aborted w' = aborted w
  /\ lastArgs w' = match pol with
                   | ThrottlePolicy => lastArgs w
                   | DebouncePolicy => None
                   end.
Proof.
  destruct pol; cbn [engine_of rl_cancel throttle_engine debounce_engine];
    unfold Throttle.cancel, Debounce.cancel, Debounce.cleanup;
    straighten; simpl; repeat split.
Qed.

(** X4. [cancel()] is idempotent: a second [cancel()] changes nothing. *)
Lemma cancel_twice (pol : Policy) w :
  rl_cancel (engine_of pol) (rl_cancel (engine_of pol) w)
  = rl_cancel (engine_of pol) w.
Proof.
  destruct (cancel_clears pol w) as (H1 & H2 & H3 & H4 & H5 & _ & _ & _ & _ & H6).
  set (w' := rl_cancel (engine_of pol) w) in *. clearbody w'.
  destruct pol; cbn [engine_of rl_cancel throttle_engine debounce_engine];
    unfold Throttle.cancel, Debounce.cancel, Debounce.cleanup.
  - rewrite (clear_timer_idle w' H1), (reject_if_pending_idle _ w' H4),
      (run_abortCleanup_idle w' H5).
    apply clear_promise_slot_idle; assumption.
  - rewrite (clear_timer_idle w' H1), (reject_if_pending_idle _ w' H4),
      (clear_timer_idle w' H1), (run_abortCleanup_idle w' H5),
      (clear_promise_slot_idle w' H2 H3 H4).
    apply set_lastArgs_idle; assumption.
Qed.

(** *** Joining the pending promise *)

Lemma not_leading_edge_test c now w :
  not_leading_edge c now w ->
  leading c && ((lastExecTime w =? 0) || (wait c <=? now - lastExecTime w))
  = false.
Proof.
  intros [Hl | [Hnz Hgap]].
  - rewrite Hl. reflexivity.
  - rewrite (inside_window c _ now Hnz Hgap). apply andb_false_r.
Qed.

(** X5. While the signal has not fired, an invocation that does not
    qualify for the leading edge (of a throttle: with [trailing]) calls
    nothing, records its arguments as [lastArgs] and returns the pending
    promise: the one outstanding, or a fresh one when there is none. *)
Lemma invocation_joins (pol : Policy) c now (args : Args) w :
  signal_aborted c w = false ->
  not_leading_edge c now w ->
  (pol = ThrottlePolicy -> trailing c = true) ->
  exists w',
    rl_invoke (engine_of pol) c now args w
    = Finished w' (Adopts (default (length (promises w)) (pendingPromise w)))
    /\ pendingPromise w'
       = Some (default (length (promises w)) (pendingPromise w))
    /\ promises w' = match pendingPromise w with
                     | Some _ => promises w
                     | None => promises w ++ [Pending]
                     end
    /\ lastArgs w' = Some args
    /\ calls w' = calls w.
Proof.
  intros Hsig Hnl Htr. pose proof (not_leading_edge_test c now w Hnl) as Hcond.
  destruct pol; cbn [engine_of rl_invoke throttle_engine debounce_engine].
  - specialize (Htr eq_refl).
    unfold Throttle.asyncThrottled. rewrite Hsig, Hcond.
    assert (Ht : forall b : bool,
               (if b then
                  if negb (trailing c) then Finished w (Resolves (lastResult w))
                  else Throttle.trailingEdge c now (now - lastExecTime w) args w
                else Throttle.trailingEdge c now (now - lastExecTime w) args w)
               = Throttle.trailingEdge c now (now - lastExecTime w) args w).
    { intros []; rewrite ?Htr; reflexivity. }
    rewrite Ht. unfold Throttle.trailingEdge, setTimeout, newPendingPromise.
    rewrite Htr. straighten. simpl.
    destruct (pendingPromise w) eqn:Hpp; simpl; rewrite ?Hpp; simpl;
      eexists; (split; [reflexivity|]); simpl; rewrite ?Hpp; repeat split.
  - unfold Debounce.asyncDebounced, setTimeout, newPendingPromise.
    rewrite Hsig. straighten. simpl.
    destruct (pendingPromise w) eqn:Hpp; simpl; rewrite Hcond;
      destruct (trailing c); simpl; rewrite ?Hpp; simpl;
      eexists; (split; [reflexivity|]); simpl; rewrite ?Hpp; repeat split.
Qed.

(** *** The trailing timer *)


(** *** After the signal has fired *)

Lemma aborted_step (pol : Policy) c (e : Event Args R) w :
  abortSignal c = true ->
  aborted w = true ->
  (pol = DebouncePolicy -> timers w = []) ->
  aborted (step (engine_of pol) c e w) = true
  /\ calls (step (engine_of pol) c e w) = calls w
  /\ (timers w = [] -> timers (step (engine_of pol) c e w) = []).
Proof.
  intros Hs Ha Ht.
  assert (Hsig : signal_aborted c w = true)
    by (unfold signal_aborted; rewrite Hs, Ha; reflexivity).
  destruct pol, e as [clk a| | |clk|k o|]; unfold step;
    cbn [engine_of rl_invoke rl_flush rl_cancel rl_timer rl_resume
         rl_abortHandler throttle_engine debounce_engine].
  - unfold Throttle.asyncThrottled. rewrite Hsig. simpl. auto.
  - unfold Throttle.flush, signal_aborted. straighten. simpl.
    rewrite Hs, Ha. destruct (lastArgs w); simpl; straighten; simpl;
      repeat split; auto; intros ->; destruct (timeoutId w); reflexivity.
  - unfold Throttle.cancel. straighten. simpl. repeat split; auto.
    intros ->. destruct (timeoutId w); reflexivity.
  - unfold fire. destruct (timers w) as [|t rest] eqn:Htm; simpl; auto.
    unfold Throttle.timerCallback, signal_aborted. simpl. rewrite Hs, Ha.
    destruct (lastArgs w); simpl; straighten; simpl; repeat split; auto;
      discriminate.
  - unfold Throttle.resume.
    destruct k, o; simpl; straighten; simpl; auto.
  - unfold signal_aborts. rewrite Hs, Ha. simpl. auto.
  - unfold Debounce.asyncDebounced. rewrite Hsig. simpl. auto.
  - unfold Debounce.flush. rewrite Hsig.
    destruct (lastArgs w); simpl; auto.
  - unfold Debounce.cancel, Debounce.cleanup. straighten. simpl.
    repeat split; auto. intros ->. destruct (timeoutId w); reflexivity.
  - unfold fire. rewrite (Ht eq_refl). simpl. auto.
  - unfold Debounce.resume.
    destruct k, o; simpl; straighten; simpl; auto.
  - unfold signal_aborts. rewrite Hs, Ha. simpl. auto.
Qed.

(** X7. Once the abort signal has fired, nothing the caller or the host
    does makes the wrapper call the operation again.  A debounce timer
    callback does not look at the signal, so for debounce the timer must
    have been cleared, as the abort listener does. *)
Lemma aborted_run (pol : Policy) c (es : list (Event Args R)) w :
  abortSignal c = true ->
  aborted w = true ->
  (pol = DebouncePolicy -> timers w = []) ->
  calls (run (engine_of pol) c es w) = calls w.
Proof.
  intros Hs. revert w. induction es as [|e es IH]; intros w Ha Ht.
  - reflexivity.
  - destruct (aborted_step pol c e w Hs Ha Ht) as (Ha' & Hc' & Ht').
    change (run (engine_of pol) c (e :: es) w)
      with (run (engine_of pol) c es (step (engine_of pol) c e w)).
    rewrite IH; auto.
Qed.

(** *** Flush, twice and after cancel *)

Lemma flush_idle (pol : Policy) c w :
  lastArgs w = None \/ signal_aborted c w = true ->
  exists w',
    rl_flush (engine_of pol) c w = Finished w' (Resolves (lastResult w))
    /\ calls w' = calls w /\ lastResult w' = lastResult w
    /\ lastExecTime w' = lastExecTime w.
Proof.
  intros H.
  destruct pol; cbn [engine_of rl_flush throttle_engine debounce_engine].
  - unfold Throttle.flush, signal_aborted in *. straighten. simpl.
    destruct H as [-> | ->]; [|destruct (lastArgs w)]; straighten; simpl;
      eexists; repeat split.
  - unfold Debounce.flush.
    destruct H as [-> | ->]; [|destruct (lastArgs w)]; eexists; repeat split.
Qed.


(** X9. [flush()] right after [cancel()], while the abort signal has
    not fired: a throttle wrapper keeps [lastArgs] through [cancel()],
    so the flush calls the operation with the cancelled invocation's
    arguments; a debounce wrapper, or a throttle wrapper with nothing
    waiting, resolves with [lastResult] and calls nothing. *)
Lemma flush_after_cancel (pol : Policy) c w :
  signal_aborted c w = false ->
  match pol, lastArgs w with
  | ThrottlePolicy, Some a =>
      exists w',
        rl_flush (engine_of pol) c (rl_cancel (engine_of pol) w)
        = Calls w' a KFlush
        /\ calls w' = calls w ++ [a]
        /\ lastArgs w' = None
  | _, _ =>
      exists w',
        rl_flush (engine_of pol) c (rl_cancel (engine_of pol) w)
        = Finished w' (Resolves (lastResult w))
        /\ calls w' = calls w
  end.
Proof.
  intros Hsig.
  destruct (cancel_clears pol w)
    as (H1 & H2 & H3 & H4 & H5 & Hres & _ & Hc & Hab & Hla).
  set (w' := rl_cancel (engine_of pol) w) in *. clearbody w'.
  assert (Hsig' : signal_aborted c w' = false)
    by (unfold signal_aborted in *; rewrite Hab; exact Hsig).
  destruct pol.
  - cbn [engine_of rl_flush throttle_engine].
    unfold Throttle.flush. rewrite (clear_timer_idle w' H1), Hla, Hsig'.
    destruct (lastArgs w) as [a|].
    + eexists. split; [reflexivity|]. simpl. rewrite Hc. auto.
    + rewrite (resolve_if_pending_idle _ w' H3). simpl. rewrite Hres.
      eexists. split; [reflexivity|]. simpl. exact Hc.
  - assert (Hidle : lastArgs w' = None \/ signal_aborted c w' = true)
      by (left; exact Hla).
    destruct (flush_idle DebouncePolicy c w' Hidle) as (w2 & Hf & Hc2 & _).
    rewrite Hres in Hf.
    destruct (lastArgs w); exists w2; (split; [exact Hf|congruence]).
Qed.

(** *** Where the trailing timer is due *)

Lemma trailing_delay_bounds (pol : Policy) c (tsle : Z) :
  let d := match pol with
           | ThrottlePolicy => Throttle.trailing_delay c tsle
           | DebouncePolicy => Debounce.trailing_delay c tsle
           end in
  d <= wait c
  /\ forall m, truthy (maxWait c) = Some m ->
       (pol = ThrottlePolicy -> 0 < tsle) -> d <= m - tsle.
Proof.
  destruct pol; simpl; unfold Throttle.trailing_delay, Debounce.trailing_delay;
    destruct (truthy (maxWait c)) as [m|]; try destruct (0 <? tsle) eqn:Hpos;
    (split; [lia|]); intros m' Hm Hp; try discriminate;
    try (injection Hm as <-; lia).
  specialize (Hp eq_refl). apply Z.ltb_ge in Hpos. lia.
Qed.

(** X10. An invocation that arms the trailing timer leaves exactly that
    timer live; it is due no earlier than now and no later than [wait]
    from now.  With a [maxWait] it is also due no later than [maxWait]
    after the last execution (or now, when that has passed); a throttle
    wrapper applies [maxWait] only when the clock has moved past
    [lastExecTime], so for throttle this needs
    [0 < now - lastExecTime]. *)
Lemma trailing_timer_due (pol : Policy) c now (args : Args) w :
  signal_aborted c w = false ->
  not_leading_edge c now w ->
  trailing c = true ->
  timers_owned w ->
  exists w' r id due,
    rl_invoke (engine_of pol) c now args w = Finished w' r
    /\ timers w' = [(id, due)]
    /\ timeoutId w' = Some id
    /\ now <= due <= now + Z.max 0 (wait c)
    /\ forall m, truthy (maxWait c) = Some m ->
         (pol = ThrottlePolicy -> 0 < now - lastExecTime w) ->
         due <= Z.max now (lastExecTime w + m).
Proof.
  intros Hsig Hnl Htr Hown.
  pose proof (not_leading_edge_test c now w Hnl) as Hcond.
  pose proof (trailing_delay_bounds pol c (now - lastExecTime w)) as [Hb1 Hb2].
  assert (Hown' : forall v, timers_owned (set_lastArgs v w)) by (intros; exact Hown).
  destruct pol; cbn [engine_of rl_invoke throttle_engine debounce_engine].
  - unfold Throttle.asyncThrottled. rewrite Hsig, Hcond.
    assert (Ht : forall b : bool,
               (if b then
                  if negb (trailing c) then Finished w (Resolves (lastResult w))
                  else Throttle.trailingEdge c now (now - lastExecTime w) args w
                else Throttle.trailingEdge c now (now - lastExecTime w) args w)
               = Throttle.trailingEdge c now (now - lastExecTime w) args w).
    { intros []; rewrite ?Htr; reflexivity. }
    rewrite Ht. unfold Throttle.trailingEdge, setTimeout, newPendingPromise.
    rewrite Htr, (clear_timer_owned _ (Hown' _)). simpl.
    pose proof (host_delay_bounds
                  (Throttle.trailing_delay c (now - lastExecTime w))) as Hh.
    destruct (pendingPromise w) eqn:Hpp; simpl; rewrite ?Hpp; simpl;
      eexists; eexists; eexists; eexists; (split; [reflexivity|]); simpl;
      (split; [reflexivity|split; [reflexivity|]]);
      (split; [lia|]); intros m Hm Hp; specialize (Hb2 m Hm Hp); lia.
  - unfold Debounce.asyncDebounced, setTimeout, newPendingPromise.
    rewrite Hsig, (clear_timer_owned _ Hown). simpl.
    pose proof (host_delay_bounds
                  (Debounce.trailing_delay c (now - lastExecTime w))) as Hh.
    destruct (pendingPromise w) eqn:Hpp; simpl; rewrite Hcond, Htr; simpl;
      rewrite ?Hpp; simpl;
      eexists; eexists; eexists; eexists; (split; [reflexivity|]); simpl;
      (split; [reflexivity|split; [reflexivity|]]);
      (split; [lia|]); intros m Hm Hp; specialize (Hb2 m Hm Hp); lia.
Qed.

(** *** At most one timer *)

Lemma one_timer_owned w : one_timer w -> timers_owned w.
Proof.
  unfold timers_owned. intros [-> | (id & due & -> & ->)]; repeat constructor.
Qed.

Lemma owned_same w w' :
  timers_owned w -> timers w' = timers w -> timeoutId w' = timeoutId w ->
  timers_owned w'.
Proof. unfold timers_owned. intros H -> ->. exact H. Qed.

Ltac clear_owned Hown :=
  rewrite ?clear_timer_owned
    by (apply (owned_same _ _ Hown); reflexivity).

Ltac close_one_timer H :=
  unfold one_timer; simpl;
  first [ left; reflexivity
        | right; eexists; eexists; split; reflexivity
        | exact H ].

Lemma one_timer_step (pol : Policy) c (e : Event Args R) w :
  one_timer w -> one_timer (step (engine_of pol) c e w).
Proof.
  intros H. pose proof (one_timer_owned w H) as Hown.
  destruct pol, e as [clk a| | |clk|k o|]; unfold step;
    cbn [engine_of rl_invoke rl_flush rl_cancel rl_timer rl_resume
         rl_abortHandler throttle_engine debounce_engine].
  - unfold Throttle.asyncThrottled, Throttle.trailingEdge,
      Throttle.executeFunction, setTimeout, newPendingPromise, signal_aborted,
      clear_promise_slot, call_fn.
    clear_owned Hown.
    repeat first [progress simpl | case_test]; close_one_timer H.
  - unfold Throttle.flush, signal_aborted, call_fn, clear_promise_slot.
    clear_owned Hown. straighten.
    repeat first [progress simpl | case_test]; close_one_timer H.
  - unfold Throttle.cancel, clear_promise_slot. clear_owned Hown. straighten.
    close_one_timer H.
  - unfold fire. destruct (timers w) as [|t rest] eqn:Htm; [exact H|].
    assert (rest = []) as ->.
    { destruct H as [H | (id & due & H & _)]; congruence. }
    cbn [rl_timer throttle_engine].
    unfold Throttle.timerCallback, Throttle.executeFunction, signal_aborted,
      call_fn, clear_promise_slot. straighten.
    repeat first [progress simpl | case_test]; close_one_timer H.
  - unfold Throttle.resume, clear_promise_slot.
    destruct k, o; simpl; straighten; close_one_timer H.
  - unfold signal_aborts. cbn [rl_abortHandler throttle_engine].
    unfold Throttle.abortHandler, Throttle.cleanup,
      clear_promise_slot.
    clear_owned Hown. straighten.
    repeat first [progress simpl | case_test]; close_one_timer H.
  - unfold Debounce.asyncDebounced, Debounce.executeFunction, setTimeout,
      newPendingPromise, signal_aborted, call_fn.
    clear_owned Hown.
    repeat first [progress simpl | case_test]; close_one_timer H.
  - unfold Debounce.flush, Debounce.cleanup, signal_aborted, call_fn,
      clear_promise_slot.
    clear_owned Hown. straighten.
    repeat first [progress simpl | case_test]; close_one_timer H.
  - unfold Debounce.cancel, Debounce.cleanup, clear_promise_slot.
    straighten. simpl. clear_owned Hown.
    unfold one_timer; simpl. left.
    destruct (timeoutId w) as [id|] eqn:Hid.
    + rewrite (owned_filter id (timers w) (Some id)); [| |reflexivity].
      * reflexivity.
      * unfold timers_owned in Hown. rewrite Hid in Hown. exact Hown.
    + unfold timers_owned in Hown. rewrite Hid in Hown.
      rewrite (owned_none _ Hown). reflexivity.
  - unfold fire. destruct (timers w) as [|t rest] eqn:Htm; [exact H|].
    assert (rest = []) as ->.
    { destruct H as [H | (id & due & H & _)]; congruence. }
    cbn [rl_timer debounce_engine].
    unfold Debounce.timerCallback, Debounce.executeFunction, call_fn,
      clear_promise_slot. straighten.
    repeat first [progress simpl | case_test]; close_one_timer H.
  - unfold Debounce.resume, clear_promise_slot.
    destruct k, o; simpl; straighten; close_one_timer H.
  - unfold signal_aborts. cbn [rl_abortHandler debounce_engine].
    unfold Debounce.abortHandler, Debounce.cleanup,
      clear_promise_slot.
    clear_owned Hown. straighten.
    repeat first [progress simpl | case_test]; close_one_timer H.
Qed.

(** X1. In every state a promise-carrying throttle or debounce wrapper
    reaches from construction the host holds at most one live timer of
    the wrapper, and [timeoutId] names it. *)
Lemma one_timer_reachable (pol : Policy) c signal (es : list (Event Args R)) :
  one_timer (run (engine_of pol) c es (initial c signal)).
Proof.
  assert (G : forall w, one_timer w -> one_timer (run (engine_of pol) c es w)).
  { induction es as [|e es IH]; intros w H; [exact H|].
    apply IH, one_timer_step, H. }
  apply G. left. reflexivity.
Qed.

(** *** What an event does to [lastResult] and [lastExecTime] *)

(** X2. [lastResult] changes only when the wrapped operation fulfils, and
    then holds the value it fulfilled with; no invocation, flush, cancel,
    timer, rejection or abort touches it. *)
Lemma step_lastResult (pol : Policy) c (e : Event Args R) w :
  lastResult (step (engine_of pol) c e w)
  = match e with
    | Settles _ (Fulfilled r) => Some r
    | _ => lastResult w
    end.
Proof.
  destruct pol, e as [clk a| | |clk|k o|]; crunch; reflexivity.
Qed.

(** X3. An event calls the wrapped operation at most once, and
    [lastExecTime] moves only in an event that calls it. *)
Lemma step_stamps_only_with_call (pol : Policy) c (e : Event Args R) w :
  (lastExecTime (step (engine_of pol) c e w) = lastExecTime w
   \/ exists a, calls (step (engine_of pol) c e w) = calls w ++ [a])
  /\ (calls (step (engine_of pol) c e w) = calls w
      \/ exists a, calls (step (engine_of pol) c e w) = calls w ++ [a]).
Proof.
  destruct pol, e as [clk a| | |clk|k o|]; crunch; try congruence;
    split; eauto.
Qed.



End EngineMore.

(** ** The low-precision wrappers *)
Section LowFacts.
Context {Args : Type}.
Implicit Types (w : Low.LowInstance Args) (c : Low.LowConfig).

(** A leading-only throttle: the invocation runs the operation or does
    nothing at all. *)
Lemma low_throttle_leading_only c now (a : Args) w :
  Low.trailing c = false ->
  (Low.leading c = true /\ Low.wait c <= now - Low.lastExecTime w
   /\ Low.calls (Low.throttled c now a w) = Low.calls w ++ [a]
   /\ Low.lastExecTime (Low.throttled c now a w) = now
   /\ Low.timers (Low.throttled c now a w) = Low.timers w)
  \/ ((Low.leading c = false \/ now - Low.lastExecTime w < Low.wait c)
      /\ Low.throttled c now a w = w).
Proof.
  intros Ht. unfold Low.throttled. rewrite Ht.
  destruct (Low.leading c); simpl.
  - destruct (Low.wait c <=? now - Low.lastExecTime w) eqn:Hw.
    + left. apply Z.leb_le in Hw. auto.
    + right. apply Z.leb_gt in Hw. auto.
  - right. auto.
Qed.

(** X12. Low-precision throttle without [trailing]: invocations that all
    arrive within one window of length [wait] cause at most one call, and
    none when the last call was at the start of the window or later. *)
Lemma low_throttle_window_rate c (s : Z) (invs : list (Z * Args)) :
  Low.trailing c = false ->
  within_window s (Low.wait c) invs ->
  forall w,
    let w' := fold_left (fun w i => Low.throttled c i.1 i.2 w) invs w in
    (Low.calls w' = Low.calls w
     \/ exists a, Low.calls w' = Low.calls w ++ [a])
    /\ (s <= Low.lastExecTime w -> Low.calls w' = Low.calls w).
Proof.
  intros Ht Hin. induction Hin as [|[t a] invs [Hlo Hhi] _ IH]; intros w; simpl.
  - auto.
  - simpl in Hlo, Hhi.
    destruct (low_throttle_leading_only c t a w Ht)
      as [(_ & _ & Hc & Hl & _) | (_ & ->)].
    + destruct (IH (Low.throttled c t a w)) as [_ Hrest].
      rewrite Hl in Hrest. specialize (Hrest Hlo).
      split.
      * right. exists a. rewrite Hrest. exact Hc.
      * intros Hs.
        destruct (low_throttle_leading_only c t a w Ht)
          as [(_ & Hw & _) | (_ & Heq)]; [lia|].
        rewrite Heq in Hc. apply (f_equal length) in Hc.
        rewrite length_app in Hc. simpl in Hc. lia.
    + apply IH.
Qed.


(** *** Trailing edge of the low-precision throttle *)

Lemma low_filter_own (id : nat) (due : Z) :
  filter (fun t : nat * Z => t.1 <> id) [(id, due)] = [].
Proof.
  rewrite filter_cons. simpl. destruct (decide (id <> id)); [congruence|].
  reflexivity.
Qed.

(** One invocation inside the window: the timer is (re)armed for the end
    of the window and the arguments are kept. *)
Lemma low_throttle_arms c (t0 t : Z) (a : Args) w :
  Low.trailing c = true ->
  Low.wait c <= TIMEOUT_MAX ->
  Low.lastExecTime w = t0 ->
  t0 <= t -> t - t0 < Low.wait c ->
  (Low.timers w = []
   \/ exists id, Low.timers w = [(id, t0 + Low.wait c)]
                 /\ Low.timeoutId w = Some id) ->
  let w' := Low.throttled c t a w in
  (exists id, Low.timers w' = [(id, t0 + Low.wait c)]
              /\ Low.timeoutId w' = Some id)
  /\ Low.lastArgs w' = Some a
  /\ Low.lastExecTime w' = t0
  /\ Low.calls w' = Low.calls w.
Proof.
  intros Htr Hmax Ht0 Hlo Hhi Htm w'. subst w'. unfold Low.throttled.
  rewrite Htr, Ht0.
  replace (Low.wait c <=? t - t0) with false
    by (symmetry; apply Z.leb_gt; exact Hhi).
  rewrite andb_false_r.
  assert (Hdue : t + host_delay (Z.max 0 (Low.wait c - (t - t0)))
                 = t0 + Low.wait c)
    by (rewrite host_delay_in_range by lia; lia).
  destruct w as [tid lastT lArgs tms nt cs]. simpl in *.
  unfold Low.setTimeout, Low.clearTimeout. simpl.
  destruct Htm as [-> | (id & -> & ->)]; simpl.
  - destruct tid; simpl; rewrite Hdue; eauto 10.
  - rewrite low_filter_own. simpl. rewrite Hdue. eauto 10.
Qed.

Lemma low_throttle_burst_armed c (t0 : Z) (invs : list (Z * Args)) :
  Low.trailing c = true ->
  Low.wait c <= TIMEOUT_MAX ->
  within_window t0 (Low.wait c) invs ->
  forall w (a0 : Args),
    Low.lastExecTime w = t0 ->
    (exists id, Low.timers w = [(id, t0 + Low.wait c)]
                /\ Low.timeoutId w = Some id) ->
    Low.lastArgs w = Some a0 ->
    let w' := low_burst (Low.throttled c) Low.throttle_timer invs w in
    (exists id, Low.timers w' = [(id, t0 + Low.wait c)]
                /\ Low.timeoutId w' = Some id)
    /\ Low.lastArgs w' = Some (default a0 (snd <$> last invs))
    /\ Low.lastExecTime w' = t0
    /\ Low.calls w' = Low.calls w.
Proof.
  intros Htr Hmax Hin. induction Hin as [|[t a] invs [Hlo Hhi] _ IH];
    intros w a0 Ht0 Harm Hla; simpl.
  - auto.
  - simpl in Hlo, Hhi.
    assert (Hnf : low_fire_due Low.throttle_timer t w = w).
    { unfold low_fire_due. destruct Harm as (id & -> & _).
      destruct (t0 + Low.wait c <=? t) eqn:Hd; [|reflexivity].
      apply Z.leb_le in Hd. lia. }
    rewrite Hnf.
    destruct (low_throttle_arms c t0 t a w Htr Hmax Ht0 Hlo Hhi
                (or_intror Harm))
      as (Harm' & Hla' & Ht0' & Hc').
    destruct (IH _ a Ht0' Harm' Hla') as (H1 & H2 & H3 & H4).
    repeat split; auto; [|congruence].
    rewrite H2. destruct invs as [|i invs']; [reflexivity|].
    change (last ((t, a) :: i :: invs')) with (last (i :: invs')).
    destruct (last (i :: invs')) eqn:Hl; [reflexivity|].
    apply last_None in Hl. discriminate.
Qed.

Lemma low_throttle_timer_fires (id : nat) (due : Z) (a : Args) w :
  Low.timers w = [(id, due)] ->
  Low.lastArgs w = Some a ->
  let w' := low_quiesce Low.throttle_timer w in
  Low.calls w' = Low.calls w ++ [a]
  /\ Low.lastExecTime w' = due
  /\ Low.timers w' = []
  /\ Low.lastArgs w' = None.
Proof.
  intros Htm Hla. destruct w as [tid lastT lArgs tms nt cs]. simpl in *.
  subst. unfold low_quiesce, Low.fire, Low.throttle_timer. simpl. auto.
Qed.

(** X13. Low-precision throttle with [trailing] and a [wait] the host's
    timers honour (at most [TIMEOUT_MAX]): invocations arriving within
    [wait] of the last execution cause one call, with the arguments of
    the last of them, when the window ends. *)
Lemma low_throttle_trailing_burst c (invs : list (Z * Args)) w t_last a_last :
  Low.trailing c = true ->
  Low.wait c <= TIMEOUT_MAX ->
  Low.timers w = [] ->
  within_window (Low.lastExecTime w) (Low.wait c) invs ->
  last invs = Some (t_last, a_last) ->
  let w' := low_quiesce Low.throttle_timer
              (low_burst (Low.throttled c) Low.throttle_timer invs w) in
  Low.calls w' = Low.calls w ++ [a_last]
  /\ Low.lastExecTime w' = Low.lastExecTime w + Low.wait c
  /\ Low.timers w' = []
  /\ Low.lastArgs w' = None.
Proof.
  intros Htr Hmax Htm Hin Hlast w'. subst w'.
  destruct invs as [|[t a] invs]; [discriminate|].
  inversion Hin as [|? ? [Hlo Hhi] Hin']; subst. simpl in Hlo, Hhi.
  assert (Hb : low_burst (Low.throttled c) Low.throttle_timer
                 ((t, a) :: invs) w
               = low_burst (Low.throttled c) Low.throttle_timer invs
                   (Low.throttled c t a w)).
  { simpl. unfold low_fire_due. rewrite Htm. reflexivity. }
  rewrite Hb. clear Hb.
  destruct (low_throttle_arms c _ t a w Htr Hmax eq_refl Hlo Hhi
              (or_introl Htm))
    as (Harm & Hla & Ht0 & Hc).
  destruct (low_throttle_burst_armed c (Low.lastExecTime w) invs Htr Hmax Hin'
              _ a Ht0 Harm Hla) as ((id & Htm' & Hid') & Hla' & Ht0' & Hc').
  assert (Hdef : default a (snd <$> last invs) = a_last).
  { destruct invs as [|i invs'];
      [simpl in Hlast; injection Hlast as <- <-; reflexivity|].
    change (last ((t, a) :: i :: invs')) with (last (i :: invs')) in Hlast.
    rewrite Hlast. reflexivity. }
  rewrite Hdef in Hla'.
  destruct (low_throttle_timer_fires id _ a_last _ Htm' Hla')
    as (H1 & H2 & H3 & H4).
  rewrite Hc', Hc in H1. auto.
Qed.

(** *** The low-precision debounce *)

Lemma low_debounce_arms c (t : Z) (a : Args) w :
  Low.leading c = false ->
  Low.trailing c = true ->
  truthy (Low.maxWait c) = None ->
  Low.wait c <= TIMEOUT_MAX ->
  (Low.timers w = []
   \/ exists id due, Low.timers w = [(id, due)] /\ Low.timeoutId w = Some id) ->
  let w' := Low.debounced c t a w in
  (exists id, Low.timers w' = [(id, t + Z.max 0 (Low.wait c))]
              /\ Low.timeoutId w' = Some id)
  /\ Low.lastArgs w' = Some a
  /\ Low.calls w' = Low.calls w.
Proof.
  intros Hl Htr Hm Hmax Htm w'. subst w'. unfold Low.debounced.
  destruct w as [tid lastT lArgs tms nt cs]. simpl in *.
  unfold Low.setTimeout, Low.clearTimeout.
  destruct Htm as [-> | (id & due & -> & ->)]; simpl.
  - destruct tid; simpl; rewrite Hl, Htr, Hm; simpl;
      rewrite (host_delay_in_range _ Hmax); eauto 10.
  - rewrite low_filter_own. simpl. rewrite Hl, Htr, Hm. simpl.
    rewrite (host_delay_in_range _ Hmax). eauto 10.
Qed.

Lemma low_debounce_burst_armed c (invs : list (Z * Args)) :
  Low.leading c = false ->
  Low.trailing c = true ->
  truthy (Low.maxWait c) = None ->
  Low.wait c <= TIMEOUT_MAX ->
  forall (t : Z) (a : Args) w,
    gaps_below (Low.wait c) t invs ->
    (exists id, Low.timers w = [(id, t + Z.max 0 (Low.wait c))]
                /\ Low.timeoutId w = Some id) ->
    Low.lastArgs w = Some a ->
    let w' := low_burst (Low.debounced c) Low.debounce_timer invs w in
    exists t' a',
      last ((t, a) :: invs) = Some (t', a')
      /\ (exists id, Low.timers w' = [(id, t' + Z.max 0 (Low.wait c))]
                     /\ Low.timeoutId w' = Some id)
      /\ Low.lastArgs w' = Some a'
      /\ Low.calls w' = Low.calls w.
Proof.
  intros Hl Htr Hm Hmax. induction invs as [|[t1 a1] invs IH];
    intros t a w Hg Harm Hla; simpl.
  - exists t, a. auto.
  - destruct Hg as (Hle & Hgap & Hg).
    assert (Hnf : low_fire_due Low.debounce_timer t1 w = w).
    { unfold low_fire_due. destruct Harm as (id & -> & _).
      destruct (t + Z.max 0 (Low.wait c) <=? t1) eqn:Hd; [|reflexivity].
      apply Z.leb_le in Hd. lia. }
    rewrite Hnf.
    assert (Htm : Low.timers w = []
                  \/ exists id due, Low.timers w = [(id, due)]
                                    /\ Low.timeoutId w = Some id)
      by (right; destruct Harm as (id & H1 & H2); eauto).
    destruct (low_debounce_arms c t1 a1 w Hl Htr Hm Hmax Htm)
      as (Harm' & Hla' & Hc').
    destruct (IH t1 a1 _ Hg Harm' Hla') as (t' & a' & Hlast & H1 & H2 & H3).
    exists t', a'. split; [|split; [exact H1|split; [exact H2|congruence]]].
    rewrite <- Hlast. destruct invs; reflexivity.
Qed.

Lemma low_debounce_timer_fires (id : nat) (due : Z) (a : Args) w :
  Low.timers w = [(id, due)] ->
  Low.lastArgs w = Some a ->
  let w' := low_quiesce Low.debounce_timer w in
  Low.calls w' = Low.calls w ++ [a]
  /\ Low.lastExecTime w' = due
  /\ Low.timers w' = []
  /\ Low.lastArgs w' = None.
Proof.
  intros Htm Hla. destruct w as [tid lastT lArgs tms nt cs]. simpl in *.
  subst. unfold low_quiesce, Low.fire, Low.debounce_timer. simpl. auto.
Qed.

(** X14. Low-precision debounce (trailing, no leading edge, no
    [maxWait], a [wait] the host's timers honour, at most
    [TIMEOUT_MAX]): a burst causes one call, with the arguments of its
    last invocation, [wait] after that invocation. *)
Lemma low_debounce_burst c (invs : list (Z * Args)) w t_last a_last :
  Low.leading c = false ->
  Low.trailing c = true ->
  truthy (Low.maxWait c) = None ->
  Low.wait c <= TIMEOUT_MAX ->
  Low.timers w = [] ->
  is_burst (Low.wait c) invs ->
  last invs = Some (t_last, a_last) ->
  let w' := low_quiesce Low.debounce_timer
              (low_burst (Low.debounced c) Low.debounce_timer invs w) in
  Low.calls w' = Low.calls w ++ [a_last]
  /\ Low.lastExecTime w' = t_last + Z.max 0 (Low.wait c)
  /\ Low.timers w' = []
  /\ Low.lastArgs w' = None.
Proof.
  intros Hl Htr Hm Hmax Htm Hb Hlast w'. subst w'.
  destruct invs as [|[t a] invs]; [contradiction|]. simpl in Hb.
  assert (Hbu : low_burst (Low.debounced c) Low.debounce_timer
                  ((t, a) :: invs) w
                = low_burst (Low.debounced c) Low.debounce_timer invs
                    (Low.debounced c t a w)).
  { simpl. unfold low_fire_due. rewrite Htm. reflexivity. }
  rewrite Hbu. clear Hbu.
  destruct (low_debounce_arms c t a w Hl Htr Hm Hmax (or_introl Htm))
    as (Harm & Hla & Hc).
  destruct (low_debounce_burst_armed c invs Hl Htr Hm Hmax t a _ Hb Harm Hla)
    as (t' & a' & Hlast' & (id & Htm' & _) & Hla' & Hc').
  rewrite Hlast in Hlast'. injection Hlast' as <- <-.
  destruct (low_debounce_timer_fires id _ a_last _ Htm' Hla')
    as (H1 & H2 & H3 & H4).
  rewrite Hc', Hc in H1. auto.
Qed.

End LowFacts.

(** ** The batch throttle, over any run *)
Section BatchMore.
Context {Args : Type}.
Implicit Types (w : Batch.BatchInstance Args) (c : Batch.BatchConfig)
  (fn : nat -> list Args -> Completion unit).

Lemma batch_step_conserves fn c (e : Batch.BatchEvent Args) w :
  returns_always fn ->
  concat (Batch.calls (Batch.step fn c e w)) ++ Batch.batch (Batch.step fn c e w)
  = (concat (Batch.calls w) ++ Batch.batch w) ++ invoked_args [e].
Proof.
  intros Hret. destruct e as [now a|]; simpl.
  - destruct (batch_batched_cases fn c now a w)
      as [(_ & Hc & Hr)|(_ & -> & -> & _)].
    + rewrite Hret in Hr. destruct Hr as (-> & _). rewrite Hc.
      rewrite concat_app. simpl. rewrite !app_nil_r, app_assoc. reflexivity.
    + rewrite !app_assoc. reflexivity.
  - rewrite app_nil_r. unfold Batch.fire.
    destruct (Batch.timers w) as [|t rest]; [reflexivity|].
    match goal with |- context [Batch.flush fn ?x] =>
      pose proof (batch_flush_spec fn x) as [_ Hfl]; set (w1 := x) in * end.
    change (Batch.batch w1) with (Batch.batch w) in Hfl.
    change (Batch.calls w1) with (Batch.calls w) in Hfl.
    destruct (Batch.batch w) as [|x l] eqn:Hb.
    + destruct Hfl as (-> & -> & _). reflexivity.
    + rewrite Hret in Hfl. destruct Hfl as (-> & -> & _).
      rewrite concat_app. simpl. rewrite !app_nil_r. reflexivity.
Qed.

(** X15. When the batch function never throws synchronously, the batch
    throttle neither loses, duplicates nor reorders arguments: the
    flushed batches followed by the buffer are the invocations'
    arguments in order of arrival. *)
Lemma batch_run_conserves fn c (es : list (Batch.BatchEvent Args)) w :
  returns_always fn ->
  concat (Batch.calls (Batch.run fn c es w)) ++ Batch.batch (Batch.run fn c es w)
  = (concat (Batch.calls w) ++ Batch.batch w) ++ invoked_args es.
Proof.
  intros Hret. revert w. induction es as [|e es IH]; intros w.
  - simpl. rewrite app_nil_r. reflexivity.
  - change (Batch.run fn c (e :: es) w)
      with (Batch.run fn c es (Batch.step fn c e w)).
    rewrite IH, (batch_step_conserves fn c e w Hret). unfold invoked_args.
    simpl. rewrite app_nil_r, <- !app_assoc. reflexivity.
Qed.

(** *** Size of the buffer *)

Lemma batch_step_bounded fn c (e : Batch.BatchEvent Args) w :
  returns_always fn ->
  1 <= Batch.batchSize c ->
  Z.of_nat (length (Batch.batch w)) < Batch.batchSize c ->
  Z.of_nat (length (Batch.batch (Batch.step fn c e w))) < Batch.batchSize c
  /\ (Batch.calls (Batch.step fn c e w) = Batch.calls w
      \/ exists b, Batch.calls (Batch.step fn c e w) = Batch.calls w ++ [b]
                   /\ b <> []
                   /\ Z.of_nat (length b) <= Batch.batchSize c).
Proof.
  intros Hret HB Hlen. destruct e as [now a|]; simpl.
  - destruct (batch_batched_cases fn c now a w)
      as [(_ & Hc & Hr)|(Hno & -> & -> & _)].
    + rewrite Hret in Hr. destruct Hr as (-> & _). rewrite Hc.
      simpl. split; [lia|]. right. exists (Batch.batch w ++ [a]).
      split; [reflexivity|]. split; [destruct (Batch.batch w); discriminate|].
      rewrite length_app. simpl. lia.
    + split; [|left; reflexivity].
      destruct (Z_lt_le_dec (Z.of_nat (length (Batch.batch w ++ [a])))
                  (Batch.batchSize c)); [assumption|].
      exfalso. apply Hno. left. assumption.
  - unfold Batch.fire.
    destruct (Batch.timers w) as [|t rest]; [auto|].
    match goal with |- context [Batch.flush fn ?x] =>
      pose proof (batch_flush_spec fn x) as [_ Hfl]; set (w1 := x) in * end.
    change (Batch.batch w1) with (Batch.batch w) in Hfl.
    change (Batch.calls w1) with (Batch.calls w) in Hfl.
    destruct (Batch.batch w) as [|x l] eqn:Hb.
    + destruct Hfl as (-> & -> & _). simpl. split; [lia|auto].
    + rewrite Hret in Hfl. destruct Hfl as (-> & -> & _). simpl.
      split; [lia|].
      right. exists (x :: l). split; [reflexivity|].
      split; [discriminate|]. simpl in Hlen. simpl. lia.
Qed.

(** X16. When the batch function never throws synchronously and
    [batchSize] is at least 1, every batch handed to it is non-empty and
    holds at most [batchSize] items, and the buffer stays below
    [batchSize] between events. *)
Lemma batch_run_bounded fn c (es : list (Batch.BatchEvent Args)) :
  returns_always fn ->
  1 <= Batch.batchSize c ->
  forall w,
    Z.of_nat (length (Batch.batch w)) < Batch.batchSize c ->
    Forall (fun b => b <> [] /\ Z.of_nat (length b) <= Batch.batchSize c)
      (Batch.calls w) ->
    Z.of_nat (length (Batch.batch (Batch.run fn c es w))) < Batch.batchSize c
    /\ Forall (fun b => b <> [] /\ Z.of_nat (length b) <= Batch.batchSize c)
         (Batch.calls (Batch.run fn c es w)).
Proof.
  intros Hret HB. induction es as [|e es IH]; intros w Hlen Hcalls.
  - auto.
  - change (Batch.run fn c (e :: es) w)
      with (Batch.run fn c es (Batch.step fn c e w)).
    destruct (batch_step_bounded fn c e w Hret HB Hlen) as [Hlen' Hc].
    apply IH; [exact Hlen'|].
    destruct Hc as [-> | (b & -> & Hne & Hb)]; [exact Hcalls|].
    apply Forall_app. split; [exact Hcalls|]. repeat constructor; assumption.
Qed.

(** *** A buffered item always has a flush scheduled *)

Lemma batch_filter_own (id : nat) (due : Z) :
  filter (fun t : nat * Z => t.1 <> id) [(id, due)] = [].
Proof.
  rewrite filter_cons. simpl. destruct (decide (id <> id)); [congruence|].
  reflexivity.
Qed.

Lemma batch_step_flush_pending fn c (e : Batch.BatchEvent Args) w :
  returns_always fn ->
  flush_pending w -> flush_pending (Batch.step fn c e w).
Proof.
  intros Hret H. destruct w as [b tid first tms nt cs].
  unfold flush_pending in *. simpl in H.
  destruct e as [now a|]; simpl.
  - unfold Batch.batched, Batch.must_flush, Batch.clear_if_set, Batch.flush,
      Batch.setTimeout, Batch.clearTimeout. simpl.
    destruct H as [[-> ->] | (Hne & id & due & -> & ->)]; simpl.
    + destruct tid; simpl;
        match goal with |- context [if ?b then _ else _] => destruct b end;
        simpl; rewrite ?Hret; simpl;
        first [ left; split; reflexivity
              | right; split; [discriminate|eauto] ].
    + destruct b as [|x l]; [congruence|]. simpl.
      rewrite batch_filter_own.
      match goal with |- context [if ?b then _ else _] => destruct b end;
        simpl; rewrite ?Hret; simpl.
      * left. split; reflexivity.
      * right. split; [discriminate|eauto].
  - unfold Batch.fire, Batch.flush. simpl.
    destruct H as [[-> ->] | (Hne & id & due & -> & ->)]; simpl.
    + auto.
    + destruct b as [|x l]; [congruence|]. simpl. rewrite Hret. simpl. auto.
Qed.

(** X17. When the batch function never throws synchronously: whenever
    the batch throttle buffers something, exactly one timer is live to
    flush it, and when the buffer is empty no timer is live. *)
Lemma batch_run_flush_pending fn c (es : list (Batch.BatchEvent Args)) w :
  returns_always fn ->
  flush_pending w -> flush_pending (Batch.run fn c es w).
Proof.
  intros Hret. revert w. induction es as [|e es IH]; intros w H; [exact H|].
  apply IH, batch_step_flush_pending; assumption.
Qed.

End BatchMore.

(** ** Combined abort signals *)
Section SignalFacts.
Import Signals.
Local Close Scope Z_scope.
Implicit Types (st : list AbortSignal) (i j s c : nat).

Lemma is_aborted_insert_ne i j sg st :
  i <> j -> is_aborted j (<[i := sg]> st) = is_aborted j st.
Proof. intros H. unfold is_aborted. rewrite list_lookup_insert_ne; auto. Qed.

Lemma is_aborted_insert_eq i sg st :
  i < length st -> is_aborted i (<[i := sg]> st) = aborted sg.
Proof. intros H. unfold is_aborted. rewrite list_lookup_insert_eq; auto. Qed.

Lemma is_aborted_add j s c st :
  is_aborted j (addAbortListener s c st) = is_aborted j st.
Proof.
  unfold addAbortListener. destruct (st !! s) as [sg|] eqn:Hs; [|reflexivity].
  destruct (decide (s = j)) as [->|Hne].
  - rewrite is_aborted_insert_eq by (eapply lookup_lt_Some; eauto).
    unfold is_aborted. rewrite Hs. reflexivity.
  - apply is_aborted_insert_ne. exact Hne.
Qed.

Lemma existsb_add x c st signals :
  existsb (fun s => is_aborted s (addAbortListener x c st)) signals
  = existsb (fun s => is_aborted s st) signals.
Proof.
  induction signals as [|s rest IH]; simpl; [reflexivity|].
  rewrite IH, is_aborted_add. reflexivity.
Qed.

Lemma length_add s c st : length (addAbortListener s c st) = length st.
Proof.
  unfold addAbortListener. destruct (st !! s); [apply length_insert|reflexivity].
Qed.

Lemma abort_length fuel : forall i st, length (abort fuel i st) = length st.
Proof.
  induction fuel as [|f IH]; intros i st; simpl; [reflexivity|].
  destruct (st !! i) as [sg|]; [|reflexivity].
  destruct (aborted sg); [reflexivity|].
  assert (G : forall l st0, length (fold_left (fun st t => abort f t st) l st0)
                            = length st0).
  { induction l as [|t l IHl]; intros st0; simpl; [reflexivity|].
    rewrite IHl. apply IH. }
  rewrite G. apply length_insert.
Qed.

Lemma abort_monotone fuel :
  forall i st j, is_aborted j st = true -> is_aborted j (abort fuel i st) = true.
Proof.
  induction fuel as [|f IH]; intros i st j Hj; simpl; [exact Hj|].
  destruct (st !! i) as [sg|] eqn:Hi; [|exact Hj].
  destruct (aborted sg) eqn:Ha; [exact Hj|].
  assert (G : forall l st0, is_aborted j st0 = true ->
                is_aborted j (fold_left (fun st t => abort f t st) l st0) = true).
  { induction l as [|t l IHl]; intros st0 H0; simpl; [exact H0|].
    apply IHl, IH, H0. }
  apply G. destruct (decide (i = j)) as [->|Hne].
  - rewrite is_aborted_insert_eq by (eapply lookup_lt_Some; eauto). reflexivity.
  - rewrite is_aborted_insert_ne by exact Hne. exact Hj.
Qed.

Lemma abort_sets_flag fuel i st :
  i < length st -> is_aborted i (abort (S fuel) i st) = true.
Proof.
  intros Hlt. simpl. destruct (lookup_lt_is_Some_2 st i Hlt) as [sg Hi].
  rewrite Hi. destruct (aborted sg) eqn:Ha.
  - unfold is_aborted. rewrite Hi. exact Ha.
  - assert (G : forall l st0, is_aborted i st0 = true ->
                  is_aborted i (fold_left (fun st t => abort fuel t st) l st0)
                  = true).
    { induction l as [|t l IHl]; intros st0 H0; simpl; [exact H0|].
      apply IHl, abort_monotone, H0. }
    apply G. rewrite is_aborted_insert_eq by exact Hlt. reflexivity.
Qed.

(** Aborting a signal aborts every controller listening to it. *)
Lemma abort_reaches_listener fuel s c sg st :
  st !! s = Some sg ->
  aborted sg = false ->
  c ∈ listeners sg ->
  c < length st ->
  is_aborted c (abort (S (S fuel)) s st) = true.
Proof.
  intros Hs Ha Hin Hc. cbn [abort]. rewrite Hs, Ha.
  assert (G : forall l st0, c ∈ l -> c < length st0 ->
                is_aborted c (fold_left (fun st t => abort (S fuel) t st) l st0)
                = true).
  { induction l as [|t l IHl]; intros st0 Hl H0; [inversion Hl|].
    cbn [fold_left]. apply elem_of_cons in Hl as [<-|Hl].
    - assert (K : forall l' st1, is_aborted c st1 = true ->
                    is_aborted c
                      (fold_left (fun st t => abort (S fuel) t st) l' st1)
                    = true).
      { induction l' as [|t' l' IHl']; intros st1 H1; simpl; [exact H1|].
        apply IHl'. apply (abort_monotone (S fuel)). exact H1. }
      apply K. apply abort_sets_flag. exact H0.
    - apply IHl; [exact Hl|]. rewrite abort_length. exact H0. }
  apply G; [exact Hin|]. rewrite length_insert. exact Hc.
Qed.

(** *** [combineAbortSignals] *)

Lemma combine_loop_length fuel c signals :
  forall st, length (combine_loop fuel c signals st) = length st.
Proof.
  induction signals as [|s rest IH]; intros st; simpl; [reflexivity|].
  destruct (is_aborted s st); [apply abort_length|].
  rewrite IH. apply length_add.
Qed.

Lemma combine_loop_flag fuel c signals :
  forall st,
    c < length st ->
    is_aborted c st = false ->
    is_aborted c (combine_loop (S fuel) c signals st)
    = existsb (fun s => is_aborted s st) signals.
Proof.
  induction signals as [|s rest IH]; intros st Hc Hn; simpl; [exact Hn|].
  destruct (is_aborted s st) eqn:Hs; simpl.
  - apply abort_sets_flag. exact Hc.
  - rewrite IH.
    + apply existsb_add.
    + rewrite length_add. exact Hc.
    + rewrite is_aborted_add. exact Hn.
Qed.

Lemma lookup_add_ne j s c st :
  s <> j -> addAbortListener s c st !! j = st !! j.
Proof.
  intros H. unfold addAbortListener. destruct (st !! s); [|reflexivity].
  apply list_lookup_insert_ne. exact H.
Qed.

Lemma combine_loop_keeps_inputs fuel c signals :
  forall st j,
    j <> c ->
    c ∉ signals ->
    (forall sg, st !! c = Some sg -> listeners sg = []) ->
    is_aborted j (combine_loop fuel c signals st) = is_aborted j st.
Proof.
  induction signals as [|s rest IH]; intros st j Hj Hc Hl; simpl; [reflexivity|].
  apply not_elem_of_cons in Hc as [Hsc Hc].
  destruct (is_aborted s st) eqn:Hs.
  - destruct fuel as [|f]; [reflexivity|]. simpl.
    destruct (st !! c) as [sg|] eqn:Hcs; [|reflexivity].
    destruct (aborted sg); [reflexivity|].
    rewrite (Hl sg eq_refl). simpl. apply is_aborted_insert_ne. congruence.
  - rewrite IH; [apply is_aborted_add|exact Hj|exact Hc|].
    intros sg Hsg. rewrite lookup_add_ne in Hsg by congruence. eauto.
Qed.

(** While no input is aborted the loop registers the controller on every
    input. *)
Lemma combine_loop_listens fuel c signals :
  forall st s,
    existsb (fun s => is_aborted s st) signals = false ->
    s ∈ signals ->
    s < length st ->
    exists sg, combine_loop fuel c signals st !! s = Some sg
               /\ aborted sg = false /\ c ∈ listeners sg.
Proof.
  assert (K : forall signals st s sg,
             existsb (fun s => is_aborted s st) signals = false ->
             st !! s = Some sg -> aborted sg = false -> c ∈ listeners sg ->
             exists sg', combine_loop fuel c signals st !! s = Some sg'
                         /\ aborted sg' = false /\ c ∈ listeners sg').
  { clear signals. induction signals as [|x rest IH]; intros st s sg Hn Hs Ha Hin;
      simpl in *; [eauto|].
    apply orb_false_iff in Hn as [Hx Hn]. rewrite Hx.
    assert (Hn' : existsb (fun s => is_aborted s (addAbortListener x c st)) rest
                  = false).
    { rewrite <- Hn. apply existsb_add. }
    destruct (decide (x = s)) as [->|Hne].
    - eapply (IH _ s); [exact Hn'| | |].
      + unfold addAbortListener. rewrite Hs. apply list_lookup_insert_eq.
        eapply lookup_lt_Some; eauto.
      + exact Ha.
      + simpl. apply elem_of_app. left. exact Hin.
    - eapply (IH _ s); [exact Hn'| |exact Ha|exact Hin].
      rewrite lookup_add_ne by exact Hne. exact Hs. }
  induction signals as [|x rest IH]; intros st s Hn Hin Hlt; [inversion Hin|].
  simpl in *. apply orb_false_iff in Hn as [Hx Hn]. rewrite Hx.
  assert (Hn' : existsb (fun s => is_aborted s (addAbortListener x c st)) rest
                = false).
  { rewrite <- Hn. apply existsb_add. }
  destruct (decide (x = s)) as [->|Hne].
  - destruct (lookup_lt_is_Some_2 st s Hlt) as [sg Hs].
    eapply K; [exact Hn'| | |].
    + unfold addAbortListener. rewrite Hs. apply list_lookup_insert_eq.
      eapply lookup_lt_Some; eauto.
    + simpl. unfold is_aborted in Hx. rewrite Hs in Hx. exact Hx.
    + simpl. apply elem_of_app. right. apply list_elem_of_singleton. reflexivity.
  - apply elem_of_cons in Hin as [->|Hin]; [congruence|].
    apply IH; [exact Hn'|exact Hin|]. rewrite length_add. exact Hlt.
Qed.

Lemma is_aborted_fresh j st sg :
  j < length st -> is_aborted j (st ++ [sg]) = is_aborted j st.
Proof. intros H. unfold is_aborted. rewrite lookup_app_l by exact H. reflexivity. Qed.

Lemma existsb_fresh signals st sg :
  Forall (fun s => s < length st) signals ->
  existsb (fun s => is_aborted s (st ++ [sg])) signals
  = existsb (fun s => is_aborted s st) signals.
Proof.
  induction 1 as [|s rest Hs _ IH]; simpl; [reflexivity|].
  rewrite IH, is_aborted_fresh by exact Hs. reflexivity.
Qed.

(** X18. [combineAbortSignals] returns a fresh controller that is
    aborted exactly when one of the inputs already is; the inputs keep
    their state. *)
Lemma combined_controller_aborted_iff_an_input_is fuel signals st :
  Forall (fun s => s < length st) signals ->
  let '(c, st') := combineAbortSignals (S fuel) signals st in
  c = length st
  /\ length st' = S (length st)
  /\ is_aborted c st' = existsb (fun s => is_aborted s st) signals
  /\ forall j, j < length st -> is_aborted j st' = is_aborted j st.
Proof.
  intros Hv. unfold combineAbortSignals, newAbortController.
  split; [reflexivity|]. split.
  { rewrite combine_loop_length, length_app. simpl. lia. }
  split.
  - rewrite combine_loop_flag.
    + apply existsb_fresh. exact Hv.
    + rewrite length_app. simpl. lia.
    + unfold is_aborted. rewrite lookup_app_r by lia.
      replace (length st - length st) with 0 by lia. reflexivity.
  - intros j Hj. rewrite combine_loop_keeps_inputs.
    + apply is_aborted_fresh. exact Hj.
    + lia.
    + intros Hin. rewrite Forall_forall in Hv. apply Hv in Hin. lia.
    + intros sg Hsg. rewrite lookup_app_r in Hsg by lia.
      replace (length st - length st) with 0 in Hsg by lia.
      injection Hsg as <-. reflexivity.
Qed.

(** X19. When no input is aborted at construction, the combined
    controller starts unaborted and aborting any input aborts it. *)
Lemma combined_controller_follows_its_inputs fuel fuel' signals st s :
  Forall (fun s => s < length st) signals ->
  existsb (fun s => is_aborted s st) signals = false ->
  s ∈ signals ->
  let '(c, st') := combineAbortSignals fuel signals st in
  is_aborted c st' = false
  /\ is_aborted c (abort (S (S fuel')) s st') = true.
Proof.
  intros Hv Hn Hin. unfold combineAbortSignals, newAbortController.
  set (st1 := st ++ [_]).
  assert (Hn1 : existsb (fun s => is_aborted s st1) signals = false).
  { unfold st1. rewrite existsb_fresh by exact Hv. exact Hn. }
  assert (Hs : s < length st).
  { rewrite Forall_forall in Hv. apply Hv. exact Hin. }
  assert (Hs1 : s < length st1).
  { unfold st1. rewrite length_app. simpl. lia. }
  split.
  - destruct fuel as [|f].
    + assert (Z : forall sigs st2, existsb (fun s => is_aborted s st2) sigs = false ->
                    is_aborted (length st) (combine_loop 0 (length st) sigs st2)
                    = is_aborted (length st) st2).
      { induction sigs as [|x r IHr]; intros st2 H2; simpl in *; [reflexivity|].
        apply orb_false_iff in H2 as [Hx H2]. rewrite Hx, IHr.
        - apply is_aborted_add.
        - rewrite <- H2. apply existsb_add. }
      rewrite Z by exact Hn1. unfold st1, is_aborted.
      rewrite lookup_app_r by lia.
      replace (length st - length st) with 0 by lia. reflexivity.
    + rewrite combine_loop_flag.
      * exact Hn1.
      * unfold st1. rewrite length_app. simpl. lia.
      * unfold st1, is_aborted. rewrite lookup_app_r by lia.
        replace (length st - length st) with 0 by lia. reflexivity.
  - destruct (combine_loop_listens fuel (length st) signals st1 s Hn1 Hin Hs1)
      as (sg & Hsg & Ha & Hl).
    eapply abort_reaches_listener; [exact Hsg|exact Ha|exact Hl|].
    rewrite combine_loop_length. unfold st1. rewrite length_app. simpl. lia.
Qed.

End SignalFacts.

(** ** The added properties at concrete inputs *)

Lemma invocation_joins_witness :
  let c := Debounce.config HIGH 100 no_options in
  let w : Instance string string :=
    after (Debounce.asyncDebounced c 1000 "a"%string (initial c None)) in
  exists w',
    Debounce.asyncDebounced c 1050 "b"%string w = Finished w' (Adopts 0%nat)
    /\ promises w' = [Pending]
    /\ lastArgs w' = Some "b"%string
    /\ calls w' = [].
Proof.
  intros c w.
  destruct (invocation_joins DebouncePolicy c 1050 "b"%string w)
    as (w' & H1 & _ & H2 & H3 & H4).
  - vm_compute. reflexivity.
  - left. vm_compute. reflexivity.
  - discriminate.
  - exists w'. vm_compute in H1, H2, H3, H4 |- *.
    split; [exact H1|]. split; [exact H2|]. split; [exact H3|exact H4].
Defined.


Lemma aborted_run_witness :
  let c := Throttle.config HIGH 100
             {| opt_leading := Some false; opt_trailing := None;
                opt_maxWait := None; opt_abortSignal := Some false;
                opt_precision := None |} in
  let clk t := {| performance_now := t; Date_now := t |} in
  let w : Instance string string :=
    run throttle_engine c [Invoke (clk 1000) "a"%string; SignalAborts]
      (initial c (Some false)) in
  calls (run throttle_engine c
           [Invoke (clk 1010) "b"%string; FlushCalled; TimerFires (clk 1100);
            Settles KTimer (Fulfilled "r"%string)] w)
  = [].
Proof.
  intros c clk w.
  apply (aborted_run ThrottlePolicy c
           [Invoke (clk 1010) "b"%string; FlushCalled; TimerFires (clk 1100);
            Settles KTimer (Fulfilled "r"%string)] w).
  - reflexivity.
  - reflexivity.
  - discriminate.
Defined.

Lemma flush_after_cancel_witness :
  let c := Throttle.config HIGH 100
             {| opt_leading := Some false; opt_trailing := None;
                opt_maxWait := None; opt_abortSignal := None;
                opt_precision := None |} in
  let w : Instance string string :=
    after (Throttle.asyncThrottled c 1000 "a"%string (initial c None)) in
  exists w',
    Throttle.flush c (Throttle.cancel w) = Calls w' "a"%string KFlush
    /\ calls w' = ["a"%string].
Proof.
  intros c w.
  assert (Hsig : signal_aborted c w = false) by (vm_compute; reflexivity).
  pose proof (flush_after_cancel ThrottlePolicy c w Hsig) as H.
  vm_compute in H. vm_compute.
  destruct H as (w' & H1 & H2 & _).
  exists w'. split; [exact H1|exact H2].
Defined.

Lemma trailing_timer_due_witness :
  let c := Throttle.config HIGH 100
             {| opt_leading := Some false; opt_trailing := None;
                opt_maxWait := Some 150; opt_abortSignal := None;
                opt_precision := None |} in
  let w : Instance string string := initial c None in
  exists w' r id,
    Throttle.asyncThrottled c 1000 "a"%string w = Finished w' r
    /\ timers w' = [(id, 1000)]
    /\ timeoutId w' = Some id.
Proof.
  intros c w.
  destruct (trailing_timer_due ThrottlePolicy c 1000 "a"%string w)
    as (w' & r & id & due & H1 & H2 & H3 & [Hlo _] & Hmax).
  - vm_compute. reflexivity.
  - left. vm_compute. reflexivity.
  - vm_compute. reflexivity.
  - apply Forall_nil. exact I.
  - assert (Hhi : due <= Z.max 1000 (0 + 150)).
    { apply (Hmax 150); [vm_compute; reflexivity|]. intros _. vm_compute. reflexivity. }
    assert (due = 1000) as -> by lia.
    exists w', r, id. vm_compute in H1, H2, H3 |- *.
    split; [exact H1|]. split; [exact H2|exact H3].
Defined.


Lemma low_throttle_window_rate_witness :
  let c := Low.throttle_config 100 no_options in
  let invs := [(1000, "a"%string); (1040, "b"%string); (1099, "c"%string)] in
  let w' := fold_left (fun w i => Low.throttled c i.1 i.2 w) invs
              Low.initial in
  Low.calls w' = [] \/ exists a, Low.calls w' = [] ++ [a].
Proof.
  intros c invs w'.
  apply (low_throttle_window_rate c 1000 invs).
  - reflexivity.
  - repeat constructor; simpl; lia.
Defined.

Lemma low_throttle_trailing_burst_witness :
  let c := Low.throttle_config 100
             {| opt_leading := None; opt_trailing := Some true;
                opt_maxWait := None; opt_abortSignal := None;
                opt_precision := None |} in
  let w := Low.throttled c 1000 "a"%string Low.initial in
  let invs := [(1010, "b"%string); (1050, "c"%string)] in
  let w' := low_quiesce Low.throttle_timer
              (low_burst (Low.throttled c) Low.throttle_timer invs w) in
  Low.calls w' = ["a"%string; "c"%string] /\ Low.lastExecTime w' = 1100.
Proof.
  intros c w invs w'.
  destruct (low_throttle_trailing_burst c invs w 1050 "c"%string)
    as (H1 & H2 & _).
  - reflexivity.
  - unfold TIMEOUT_MAX. simpl. lia.
  - reflexivity.
  - repeat constructor; simpl; lia.
  - reflexivity.
  - split; [exact H1|exact H2].
Defined.

Lemma low_debounce_burst_witness :
  let c := Low.debounce_config 100 no_options in
  let invs := [(1000, "a"%string); (1050, "b"%string); (1120, "c"%string)] in
  let w' := low_quiesce Low.debounce_timer
              (low_burst (Low.debounced c) Low.debounce_timer invs
                 Low.initial) in
  Low.calls w' = ["c"%string] /\ Low.lastExecTime w' = 1220.
Proof.
  intros c invs w'.
  destruct (low_debounce_burst c invs Low.initial 1120 "c"%string)
    as (H1 & H2 & _).
  - reflexivity.
  - reflexivity.
  - reflexivity.
  - unfold TIMEOUT_MAX. simpl. lia.
  - reflexivity.
  - simpl. lia.
  - reflexivity.
  - split; [exact H1|exact H2].
Defined.

Lemma batch_run_bounded_witness :
  let c := Batch.config 100 {| opt_batchSize := Some 2;
                               opt_batchMaxWait := None |} in
  let fn := fun (_ : nat) (_ : list string) => Normal tt in
  let w' := Batch.run fn c [Batch.Invoked 1000 "a"%string;
                            Batch.Invoked 1010 "b"%string;
                            Batch.Invoked 1020 "c"%string;
                            Batch.TimerFired] Batch.initial in
  Z.of_nat (length (Batch.batch w')) < 2
  /\ Forall (fun b => b <> [] /\ Z.of_nat (length b) <= 2) (Batch.calls w').
Proof.
  intros c fn w'.
  apply (batch_run_bounded fn c).
  - intros n b. reflexivity.
  - simpl. lia.
  - simpl. lia.
  - apply Forall_nil. exact I.
Defined.

Lemma batch_run_flush_pending_witness :
  let c := Batch.config 100 {| opt_batchSize := None;
                               opt_batchMaxWait := None |} in
  let fn := fun (_ : nat) (_ : list string) => Normal tt in
  flush_pending (Batch.run fn c [Batch.Invoked 1000 "a"%string;
                                 Batch.Invoked 1010 "b"%string]
                   Batch.initial).
Proof.
  intros c fn. apply batch_run_flush_pending.
  - intros n b. reflexivity.
  - left. split; reflexivity.
Defined.

Lemma batch_run_conserves_witness :
  let c := Batch.config 100 {| opt_batchSize := Some 2;
                               opt_batchMaxWait := None |} in
  let fn := fun (_ : nat) (_ : list string) => Normal tt in
  let w' := Batch.run fn c [Batch.Invoked 1000 "a"%string;
                            Batch.Invoked 1010 "b"%string;
                            Batch.Invoked 1020 "c"%string] Batch.initial in
  concat (Batch.calls w') ++ Batch.batch w'
  = ["a"%string; "b"%string; "c"%string].
Proof.
  intros c fn w'.
  apply (batch_run_conserves fn c
           [Batch.Invoked 1000 "a"%string; Batch.Invoked 1010 "b"%string;
            Batch.Invoked 1020 "c"%string] Batch.initial).
  intros n b. reflexivity.
Defined.

Lemma combined_controller_aborted_iff_an_input_is_witness :
  let st := [{| Signals.aborted := false; Signals.listeners := [] |};
             {| Signals.aborted := true; Signals.listeners := [] |}] in
  let '(c, st') := Signals.combineAbortSignals 1 [0%nat; 1%nat] st in
  c = 2%nat
  /\ length st' = 3%nat
  /\ Signals.is_aborted c st' = true
  /\ forall j, (j < 2)%nat -> Signals.is_aborted j st' = Signals.is_aborted j st.
Proof.
  intros st.
  apply (combined_controller_aborted_iff_an_input_is 0 [0%nat; 1%nat] st).
  repeat constructor.
Defined.

Lemma combined_controller_follows_its_inputs_witness :
  let st := [{| Signals.aborted := false; Signals.listeners := [] |};
             {| Signals.aborted := false; Signals.listeners := [] |}] in
  let '(c, st') := Signals.combineAbortSignals 1 [0%nat; 1%nat] st in
  Signals.is_aborted c st' = false
  /\ Signals.is_aborted c (Signals.abort 2 1%nat st') = true.
Proof.
  intros st.
  apply (combined_controller_follows_its_inputs 1 0 [0%nat; 1%nat] st 1%nat).
  - repeat constructor.
  - reflexivity.
  - repeat constructor.
Defined.
